(** * Data quality checks over an in-memory table

    A shallow embedding of the four checkers of [main.py]:
    [check_nulls], [check_duplicates], [check_data_types] and
    [check_ranges].  The checkers are one-line compositions of pandas
    operations, so the development first fixes the part of pandas they
    rely on (frames, column selection, [isnull], [duplicated],
    [groupby(...).size()], [mode], [to_numeric], comparisons) and then
    transcribes each checker statement by statement.

    The dataset is a mutable object shared by all checkers: it is the
    state of a small state-and-exception monad.

    Conventions of the model:
    - a cell is an integer, a float, a text or the missing value, as in
      a frame read from a CSV file;
    - floats are exact rationals and integers are unbounded.  int64
      and float64 hold an integer exactly when its magnitude is at most
      2^53 ([exact_number]); on such integers the model's conversions
      and comparisons are those of pandas.  Rounding and overflow
      beyond that are outside the model, and the theorems whose
      statement depends on the value or the kind of a coerced number
      assume [exact_cell] of the column;
    - cells are compared structurally ([duplicated], [groupby_size]).
      This is pandas' comparison when no column holds both an integer
      and a float ([no_int_float_mix]), which pandas would compare by
      value;
    - a Python dictionary that is iterated ([expected_types],
      [range_rules]) is the list of its items in insertion order, and
      the theorems that need it assume the keys pairwise distinct; a
      dictionary that is built ([mismatches], [violations]) is a
      [gmap];
    - the parser of numeric texts inside [to_numeric] and the order in
      which [groupby] lists its groups are parameters. *)

From Stdlib Require Import QArith Qcanon Ascii String.
From stdpp Require Import numbers.
From stdpp Require Import gmap strings list.

Local Open Scope string_scope.

(** ** Python values and exceptions *)

(** Numbers.  Floats are modelled by their exact rational value, so
    comparisons are exact; integers are unbounded. *)
Inductive number : Type :=
  | NInt (z : Z)
  | NFloat (q : Qc).

(** A cell of a frame read from a CSV file: a number, a text, or the
    missing value (pandas' NaN). *)
Inductive scalar : Type :=
  | PNum (n : number)
  | PStr (s : string)
  | NaN.

Global Instance number_eq_dec : EqDecision number.
Proof. solve_decision. Defined.

Global Instance scalar_eq_dec : EqDecision scalar.
Proof. solve_decision. Defined.

(** [type(v)] and [type(v).__name__].  NaN is a float. *)
Inductive pytype : Type := Tint | Tfloat | Tstr.

Global Instance pytype_eq_dec : EqDecision pytype.
Proof. solve_decision. Defined.

Definition type_of (v : scalar) : pytype :=
  match v with
  | PNum (NInt _) => Tint
  | PNum (NFloat _) => Tfloat
  | PStr _ => Tstr
  | NaN => Tfloat
  end.

Definition type_name (t : pytype) : string :=
  match t with
  | Tint => "int"
  | Tfloat => "float"
  | Tstr => "str"
  end.

(** Exceptions carry the text that [str(e)] yields. *)
Inductive exn : Type :=
  | KeyError (msg : string)
  | IndexError (msg : string)
  | TypeError (msg : string)
  | ValueError (msg : string).

Definition exn_str (e : exn) : string :=
  match e with
  | KeyError m | IndexError m | TypeError m | ValueError m => m
  end.

(** Python's class hierarchy: [KeyError] and [IndexError] derive from
    [LookupError]. *)
Definition is_LookupError (e : exn) : bool :=
  match e with
  | KeyError _ | IndexError _ => true
  | TypeError _ | ValueError _ => false
  end.

Inductive result (A : Type) : Type :=
  | Ok (a : A)
  | Err (e : exn).
Arguments Ok {A} a.
Arguments Err {A} e.

Definition result_bind {A B} (r : result A) (k : A → result B) : result B :=
  match r with
  | Ok a => k a
  | Err e => Err e
  end.

Fixpoint result_mapM {A B} (f : A → result B) (l : list A) : result (list B) :=
  match l with
  | [] => Ok []
  | x :: l' =>
      result_bind (f x) (λ y,
      result_bind (result_mapM f l') (λ ys, Ok (y :: ys)))
  end.

(** ** Frames *)

(** A frame has row labels and named columns, in order.  A frame loaded
    by [read_csv] has pairwise distinct column names, and every column
    is as long as the index. *)
Record Frame (A : Type) : Type := mkFrame {
  index : list nat;
  data : list (string * list A)
}.
Arguments mkFrame {A} index data.
Arguments index {A} f.
Arguments data {A} f.

Abbreviation DataFrame := (Frame scalar).

(** A [Series] is a labelled sequence. *)
Abbreviation Series A := (list (string * A)).

Definition columns {A} (f : Frame A) : list string := (data f).*1.

Definition frame_wf {A} (f : Frame A) : Prop :=
  NoDup (columns f) ∧
  Forall (λ cv, length cv.2 = length (index f)) (data f).

Fixpoint get_col {A} (col : string) (d : list (string * list A)) : option (list A) :=
  match d with
  | [] => None
  | (c, vs) :: d' => if decide (c = col) then Some vs else get_col col d'
  end.

Fixpoint set_col {A} (col : string) (vs : list A) (d : list (string * list A))
  : list (string * list A) :=
  match d with
  | [] => [(col, vs)]
  | (c, ws) :: d' =>
      if decide (c = col) then (c, vs) :: d' else (c, ws) :: set_col col vs d'
  end.

(** [f[col]] *)
Definition getitem {A} (f : Frame A) (col : string) : result (list A) :=
  match get_col col (data f) with
  | Some vs => Ok vs
  | None => Err (KeyError ("'" +:+ col +:+ "'"))
  end.

(** [f[cols]] with a list of labels: every label must be a column. *)
Definition getitem_list {A} (f : Frame A) (cols : list string) : result (Frame A) :=
  match filter (λ c, c ∉ columns f) cols with
  | [] =>
      Ok (mkFrame (index f)
            (omap (λ c, (λ vs, (c, vs)) <$> get_col c (data f)) cols))
  | missing =>
      Err (KeyError ("[" +:+ String.concat ", " missing +:+ "] not in index"))
  end.

(** [f[col] = vs] *)
Definition setitem {A} (f : Frame A) (col : string) (vs : list A) : Frame A :=
  mkFrame (index f) (set_col col vs (data f)).

Fixpoint mask_filter {A} (mask : list bool) (l : list A) : list A :=
  match mask, l with
  | b :: mask', x :: l' =>
      if b then x :: mask_filter mask' l' else mask_filter mask' l'
  | _, _ => []
  end.

(** [f[mask]] with a boolean mask: the selected rows keep their labels. *)
Definition bool_index {A} (f : Frame A) (mask : list bool) : Frame A :=
  mkFrame (mask_filter mask (index f))
          (map (λ cv, (cv.1, mask_filter mask cv.2)) (data f)).

(** [f.empty]: some axis has length 0. *)
Definition frame_empty {A} (f : Frame A) : bool :=
  match index f, data f with
  | [], _ | _, [] => true
  | _, _ => false
  end.

(** The rows of a frame, each a tuple of the values in column order. *)
Fixpoint rows_of {A} (n : nat) (d : list (string * list A)) : list (list A) :=
  match d with
  | [] => replicate n []
  | (_, vs) :: d' => zip_with cons vs (rows_of n d')
  end.

Definition rows {A} (f : Frame A) : list (list A) :=
  rows_of (length (index f)) (data f).

(** ** Series operations *)

Definition is_nan (v : scalar) : bool :=
  match v with NaN => true | _ => false end.

(** [f.isnull()] *)
Definition isnull (f : DataFrame) : Frame bool :=
  mkFrame (index f) (map (λ cv, (cv.1, map is_nan cv.2)) (data f)).

Definition sum_bools (l : list bool) : nat :=
  foldr (λ (b : bool) n, (if b then 1 else 0) + n) 0 l.

(** [f.sum()] on a boolean frame: one total per column. *)
Definition frame_sum (f : Frame bool) : Series nat :=
  map (λ cv, (cv.1, sum_bools cv.2)) (data f).

(** [s.dropna()] *)
Definition dropna (s : list scalar) : list scalar :=
  filter (λ v, v ≠ NaN) s.

Section Counting.
Context {A : Type} `{EqDecision A}.

Definition count_eq (x : A) (l : list A) : nat :=
  length (filter (λ y, y = x) l).

(** Distinct values in order of first appearance. *)
Fixpoint unique (l : list A) : list A :=
  match l with
  | [] => []
  | x :: l' => x :: filter (λ y, y ≠ x) (unique l')
  end.

(** [s.mode()]: the most frequent values.  Type objects cannot be
    ordered, so the modes stay in order of first appearance. *)
Definition mode (l : list A) : list A :=
  let top := foldr max 0 (map (λ x, count_eq x l) l) in
  filter (λ x, count_eq x l = top) (unique l).

(** [rows.duplicated(keep=False)]: marks every row that occurs more
    than once.  Missing values compare equal to each other here; other
    cells are compared structurally (see the conventions above). *)
Definition duplicated (l : list A) : list bool :=
  map (λ x, bool_decide (2 ≤ count_eq x l)%nat) l.
End Counting.

(** [s[0]] on the result of [mode()], whose labels are 0, 1, ... *)
Definition getitem0 {A} (s : list A) : result A :=
  match s with
  | x :: _ => Ok x
  | [] => Err (KeyError "0")
  end.

(** ** Numeric coercion and comparison *)

Definition number_value (n : number) : Qc :=
  match n with
  | NInt z => Qc_of_Z z
  | NFloat q => q
  end.

Definition is_int (v : scalar) : bool :=
  match v with PNum (NInt _) => true | _ => false end.

Definition is_float_or_nan (v : scalar) : bool :=
  match v with PNum (NFloat _) | NaN => true | _ => false end.

(** The dtype of a column as [to_numeric] leaves it: int64 when it
    holds only integers (also when it is empty), float64 when it holds
    only floats and NaN; anything else is an object column. *)
Definition dtype (s : list scalar) : string :=
  if forallb is_int s then "int64"
  else if forallb is_float_or_nan s then "float64"
  else "object".

Definition as_float (v : scalar) : scalar :=
  match v with
  | PNum n => PNum (NFloat (number_value n))
  | _ => v
  end.

Inductive cmp_op : Type := OpLt | OpGt.

Definition cmp_number (op : cmp_op) (x y : number) : bool :=
  match op with
  | OpLt => bool_decide (number_value x < number_value y)%Qc
  | OpGt => bool_decide (number_value y < number_value x)%Qc
  end.

Definition cmp_string (op : cmp_op) (x y : string) : bool :=
  match op with
  | OpLt => String.ltb x y
  | OpGt => String.ltb y x
  end.

Definition op_symbol (op : cmp_op) : string :=
  match op with OpLt => "<" | OpGt => ">" end.

(** One element against the bound; a missing value compares false. *)
Definition cmp_scalar (op : cmp_op) (x bound : scalar) : result bool :=
  match x, bound with
  | NaN, _ | _, NaN => Ok false
  | PNum a, PNum b => Ok (cmp_number op a b)
  | PStr a, PStr b => Ok (cmp_string op a b)
  | _, _ =>
      Err (TypeError ("'" +:+ op_symbol op +:+ "' not supported between instances of '"
                      +:+ type_name (type_of x) +:+ "' and '"
                      +:+ type_name (type_of bound) +:+ "'"))
  end.

(** [s < bound] and [s > bound].  A numeric column cannot be compared
    with a text at all. *)
Definition series_cmp (op : cmp_op) (s : list scalar) (bound : scalar)
  : result (list bool) :=
  match bound with
  | PStr _ =>
      if decide (dtype s = "object") then result_mapM (λ x, cmp_scalar op x bound) s
      else Err (TypeError ("Invalid comparison between dtype=" +:+ dtype s +:+ " and str"))
  | _ => result_mapM (λ x, cmp_scalar op x bound) s
  end.

(** [a | b] on boolean series *)
Definition series_or (a b : list bool) : list bool := zip_with orb a b.

(** A decimal integer parser, used to instantiate the numeric parser of
    [to_numeric] on sample data. *)
Definition digit_of (a : ascii) : option Z :=
  let n := nat_of_ascii a in
  if decide (48 ≤ n ≤ 57)%nat then Some (Z.of_nat (n - 48)) else None.

Fixpoint parse_digits (acc : Z) (s : string) : option Z :=
  match s with
  | EmptyString => Some acc
  | String a s' =>
      match digit_of a with
      | Some d => parse_digits (10 * acc + d) s'
      | None => None
      end
  end.

Definition parse_decimal (s : string) : option number :=
  match s with
  | EmptyString => None
  | String "-"%char (String _ _ as s') => (λ z, NInt (- z)) <$> parse_digits 0 s'
  | _ => NInt <$> parse_digits 0 s
  end.

(** ** The state-and-exception monad of the checkers

    The state is the loaded dataset.  An exception leaves the state as
    it was when the exception was raised. *)

Definition M (A : Type) : Type := DataFrame → result A * DataFrame.

Definition ret {A} (a : A) : M A := λ df, (Ok a, df).

Definition bind {A B} (m : M A) (k : A → M B) : M B :=
  λ df, match m df with
        | (Ok a, df') => k a df'
        | (Err e, df') => (Err e, df')
        end.

Definition raise {A} (e : exn) : M A := λ df, (Err e, df).

Definition lift {A} (r : result A) : M A := λ df, (r, df).

Definition get_df : M DataFrame := λ df, (Ok df, df).

Definition put_df (df : DataFrame) : M unit := λ _, (Ok tt, df).

(** [try: m except Exception as e: h e] *)
Definition try_except {A} (m : M A) (h : exn → M A) : M A :=
  λ df, match m df with
        | (Ok a, df') => (Ok a, df')
        | (Err e, df') => h e df'
        end.

Declare Scope checker_scope.
Delimit Scope checker_scope with checker.
Notation "x <- c1 ;; c2" := (bind c1 (λ x, c2))
  (at level 100, c1 at next level, right associativity) : checker_scope.
Notation "c1 ;; c2" := (bind c1 (λ _, c2))
  (at level 100, right associativity) : checker_scope.

(** [for k, v in items: acc = body acc k v], for a loop that updates a
    local dictionary [acc]. *)
Fixpoint for_items {K V S} (body : S → K → V → M S) (acc : S)
    (items : list (K * V)) : M S :=
  match items with
  | [] => ret acc
  | (k, v) :: items' =>
      bind (body acc k v) (λ acc', for_items body acc' items')
  end.

(** The table returned by [check_duplicates]: the dataset's columns
    followed by the count column. *)
Record DupTable : Type := mkDupTable {
  dup_header : list string;
  dup_rows : list (list scalar * nat)
}.

(** An entry of the mapping returned by [check_ranges]: the frame
    [invalid[[col]]], or the text of a caught exception. *)
Inductive range_entry : Type :=
  | Violations (f : DataFrame)
  | ErrorText (s : string).

(** ** The presentation layer

    What the page shows is a log of widgets.  An exception that is not
    caught stops the script; what was shown before stays. *)

Inductive shown : Type :=
  | Subheader (s : string)
  | Text (s : string)
  | NullCounts (s : Series nat)
  | DupRows (t : DupTable)
  | TypeMismatches (m : gmap string string)
  | RangeResult (label : string) (e : range_entry).

Definition App (A : Type) : Type :=
  list shown → DataFrame → result A * list shown * DataFrame.

Definition app_ret {A} (a : A) : App A := λ out df, (Ok a, out, df).

Definition app_bind {A B} (m : App A) (k : A → App B) : App B :=
  λ out df, match m out df with
            | (Ok a, out', df') => k a out' df'
            | (Err e, out', df') => (Err e, out', df')
            end.

(** A call of a checker on the loaded dataset. *)
Definition call {A} (m : M A) : App A :=
  λ out df, match m df with (r, df') => (r, out, df') end.

(** [st.write(x)], [st.subheader(s)] *)
Definition st_write (x : shown) : App unit :=
  λ out df, (Ok tt, (out ++ [x])%list, df).

Definition st_subheader (s : string) : App unit := st_write (Subheader s).

Declare Scope app_scope.
Delimit Scope app_scope with app.
Notation "x <- c1 ;; c2" := (app_bind c1 (λ x, c2))
  (at level 100, c1 at next level, right associativity) : app_scope.
Notation "c1 ;; c2" := (app_bind c1 (λ _, c2))
  (at level 100, right associativity) : app_scope.

Fixpoint app_for {A} (body : A → App unit) (l : list A) : App unit :=
  match l with
  | [] => app_ret tt
  | x :: l' => app_bind (body x) (λ _, app_for body l')
  end.

(** [m.items()] for a dictionary whose keys were inserted in the order
    of [keys]. *)
Definition dict_items {V} (keys : list string) (m : gmap string V)
  : list (string * V) :=
  omap (λ k, (λ v, (k, v)) <$> m !! k) keys.

(** A step of the page only adds to what is shown: run after [out], it
    shows [out] followed by what it shows on an empty page. *)
Definition appends {A} (m : App A) : Prop :=
  ∀ out df, m out df = match m [] df with
                       | (r, o, df') => (r, (out ++ o)%list, df')
                       end.

Definition is_subheader (x : shown) : bool :=
  match x with Subheader _ => true | _ => false end.

(** ** Sample data *)

Definition pint (z : Z) : scalar := PNum (NInt z).

(** The scenario dataset [{a:1,b:x}, {a:5,b:x}, {a:1,b:x}]. *)
Definition sample_df : DataFrame :=
  mkFrame [0; 1; 2]%nat
    [("a", [pint 1; pint 5; pint 1]); ("b", [PStr "x"; PStr "x"; PStr "x"])].

(** Two equal rows with a missing value in column [b], and one other row. *)
Definition sample_nan_df : DataFrame :=
  mkFrame [0; 1; 2]%nat
    [("a", [pint 1; pint 1; pint 2]); ("b", [NaN; NaN; PStr "y"])].

(** The same dataset with the missing values of [b] replaced by a text. *)
Definition sample_filled_df : DataFrame :=
  mkFrame [0; 1; 2]%nat
    [("a", [pint 1; pint 1; pint 2]); ("b", [PStr "z"; PStr "z"; PStr "y"])].

(** A text column holding ["1"; "2"; "oops"] and an all-missing column. *)
Definition sample_text_df : DataFrame :=
  mkFrame [0; 1; 2]%nat
    [("b", [PStr "1"; PStr "2"; PStr "oops"]); ("c", [NaN; NaN; NaN])].

(** A dataset that already has a column called [dup_count]. *)
Definition sample_dup_count_df : DataFrame :=
  mkFrame [0; 1]%nat
    [("id", [pint 1; pint 2]); ("dup_count", [pint 3; pint 4])].

(** A column of mixed types: one integer, two texts, one missing value. *)
Definition sample_mixed_df : DataFrame :=
  mkFrame [0; 1; 2; 3]%nat
    [("m", [pint 1; PStr "x"; PStr "y"; NaN])].

Section Checkers.

Set Default Proof Using "Type".

(** pandas' parser of numeric texts, used by [to_numeric]. *)
Variable parse_numeric : string → option number.

(** [groupby] orders the groups by key; only that the order is a
    rearrangement is used. *)
Variable sort_groups : list (list scalar * nat) → list (list scalar * nat).
Hypothesis sort_groups_perm : ∀ l, sort_groups l ≡ₚ l.

Local Open Scope checker_scope.

(** *** pandas operations that depend on the parameters *)

Definition coerce (v : scalar) : scalar :=
  match v with
  | PStr s =>
      match parse_numeric s with
      | Some n => PNum n
      | None => NaN
      end
  | _ => v
  end.

(** [pd.to_numeric(s, errors='coerce')]: what cannot be parsed becomes
    NaN; the result is an int64 column when every value is an
    integer, and a float64 column otherwise. *)
Definition to_numeric (s : list scalar) : list scalar :=
  let xs := map coerce s in
  if forallb is_int xs then xs else map as_float xs.

(** [f.groupby(keys).size()]: rows with a missing key are dropped
    (pandas' default [dropna=True]). *)
Definition groupby_size (f : DataFrame) (keys : list string)
  : result (list string * list (list scalar * nat)) :=
  match keys with
  | [] => Err (ValueError "No group keys passed!")
  | _ =>
      result_bind (getitem_list f keys) (λ sub,
      let rs := filter (λ r, NaN ∉ r) (rows sub) in
      Ok (keys, sort_groups (map (λ k, (k, count_eq k rs)) (unique rs))))
  end.

(** [sizes.reset_index(name=name)] *)
Definition reset_index (g : list string * list (list scalar * nat))
    (name : string) : result DupTable :=
  if decide (name ∈ g.1)
  then Err (ValueError ("cannot insert " +:+ name +:+ ", already exists"))
  else Ok (mkDupTable (g.1 ++ [name]) g.2).

(** *** The four checkers *)

(** [df[columns].isnull().sum()] *)
Definition check_nulls (cols : list string) : M (Series nat) :=
  df <- get_df ;;
  sub <- lift (getitem_list df cols) ;;
  ret (frame_sum (isnull sub)).

(** [df[df.duplicated(keep=False)].groupby(list(df.columns)).size()
      .reset_index(name='dup_count')] *)
Definition check_duplicates : M DupTable :=
  df <- get_df ;;
  let flagged := bool_index df (duplicated (rows df)) in
  sizes <- lift (groupby_size flagged (columns df)) ;;
  dupdf <- lift (reset_index sizes "dup_count") ;;
  ret dupdf.

(** [df[col].dropna().map(type).mode()[0].__name__] *)
Definition actual_type_name (s : list scalar) : result string :=
  result_bind (getitem0 (mode (map type_of (dropna s)))) (λ t,
  Ok (type_name t)).

(** One iteration of the loop of [check_data_types]. *)
Definition type_rule (mismatches : gmap string string)
    (col expected_type : string) : M (gmap string string) :=
  df <- get_df ;;
  if decide (col ∈ columns df) then
    s <- lift (getitem df col) ;;
    actual_type <- lift (actual_type_name s) ;;
    if decide (actual_type ≠ expected_type) then
      ret (<[col := "Expected " +:+ expected_type +:+ ", Found " +:+ actual_type]>
             mismatches)
    else ret mismatches
  else ret mismatches.

Definition check_data_types (expected_types : list (string * string))
  : M (gmap string string) :=
  for_items type_rule ∅ expected_types.

(** The body of the [try] block of [check_ranges]. *)
Definition range_body (violations : gmap string range_entry)
    (col : string) (min_val max_val : scalar) : M (gmap string range_entry) :=
  df <- get_df ;;
  s <- lift (getitem df col) ;;
  put_df (setitem df col (to_numeric s)) ;;
  df <- get_df ;;
  s1 <- lift (getitem df col) ;;
  below <- lift (series_cmp OpLt s1 min_val) ;;
  s2 <- lift (getitem df col) ;;
  above <- lift (series_cmp OpGt s2 max_val) ;;
  let invalid := bool_index df (series_or below above) in
  if negb (frame_empty invalid) then
    sel <- lift (getitem_list invalid [col]) ;;
    ret (<[col := Violations sel]> violations)
  else ret violations.

(** One iteration of the loop of [check_ranges]. *)
Definition range_rule (violations : gmap string range_entry)
    (col : string) (bounds : scalar * scalar) : M (gmap string range_entry) :=
  let '(min_val, max_val) := bounds in
  df <- get_df ;;
  if decide (col ∈ columns df) then
    try_except (range_body violations col min_val max_val)
      (λ e, ret (<[col := ErrorText ("Error: " +:+ exn_str e)]> violations))
  else ret violations.

Definition check_ranges (range_rules : list (string * (scalar * scalar)))
  : M (gmap string range_entry) :=
  for_items range_rule ∅ range_rules.

(** *** The report shown when the button is pressed

    The block under [if st.button("Run Data Quality Checks")], one
    definition per subheader. *)

Definition null_section (null_check_cols : list string) : App unit :=
  (st_subheader "Null Value Check" ;;
   match null_check_cols with
   | [] => st_write (Text "No columns selected for null check.")
   | _ =>
       nulls <- call (check_nulls null_check_cols) ;;
       st_write (NullCounts nulls)
   end)%app.

Definition duplicate_section : App unit :=
  (st_subheader "Duplicate Records" ;;
   duplicates <- call check_duplicates ;;
   match dup_rows duplicates with
   | [] => st_write (Text "No duplicate records found.")
   | _ => st_write (DupRows duplicates)
   end)%app.

Definition type_section (expected_types : list (string * string)) : App unit :=
  (st_subheader "Data Type Validation" ;;
   match expected_types with
   | [] => st_write (Text "No columns selected for type validation.")
   | _ =>
       type_mismatches <- call (check_data_types expected_types) ;;
       if decide (size type_mismatches = 0%nat)
       then st_write (Text "All types match expected values.")
       else st_write (TypeMismatches type_mismatches)
   end)%app.

Definition range_section (range_rules : list (string * (scalar * scalar)))
  : App unit :=
  (st_subheader "Range Validation" ;;
   match range_rules with
   | [] => st_write (Text "No columns selected for range validation.")
   | _ =>
       range_violations <- call (check_ranges range_rules) ;;
       if decide (size range_violations = 0%nat)
       then st_write (Text "All values within specified ranges.")
       else
         app_for (λ '(col, result),
                    st_write (RangeResult ("Violations in " +:+ col +:+ ":") result))
                 (dict_items range_rules.*1 range_violations)
   end)%app.

Definition run_checks (null_check_cols : list string)
    (expected_types : list (string * string))
    (range_rules : list (string * (scalar * scalar))) : App unit :=
  (null_section null_check_cols ;;
   duplicate_section ;;
   type_section expected_types ;;
   range_section range_rules)%app.

(** A text that [to_numeric] cannot parse. *)
Definition unparseable (v : scalar) : bool :=
  match v with
  | PStr s => match parse_numeric s with None => true | Some _ => false end
  | _ => false
  end.

(** *** Reference descriptions used in the statements *)

(** What one type rule contributes for a column holding [vs]. *)
Definition type_outcome (vs : list scalar) (expected_type : string)
  : result (option string) :=
  result_bind (actual_type_name vs) (λ actual_type,
  if decide (actual_type ≠ expected_type)
  then Ok (Some ("Expected " +:+ expected_type +:+ ", Found " +:+ actual_type))
  else Ok None).

(** What the [try] block computes for a column holding [vs] in a frame
    with row labels [idx]: nothing, the frame of violations, or an
    exception. *)
Definition range_outcome (idx : list nat) (col : string) (vs : list scalar)
    (min_val max_val : scalar) : result (option DataFrame) :=
  let xs := to_numeric vs in
  result_bind (series_cmp OpLt xs min_val) (λ below,
  result_bind (series_cmp OpGt xs max_val) (λ above,
  let mask := series_or below above in
  match mask_filter mask idx with
  | [] => Ok None
  | _ => Ok (Some (mkFrame (mask_filter mask idx) [(col, mask_filter mask xs)]))
  end)).

Definition range_entry_of (idx : list nat) (col : string) (vs : list scalar)
    (bounds : scalar * scalar) : option range_entry :=
  match range_outcome idx col vs bounds.1 bounds.2 with
  | Ok None => None
  | Ok (Some f) => Some (Violations f)
  | Err e => Some (ErrorText ("Error: " +:+ exn_str e))
  end.

(** A value lies outside the bounds [a], [b]: it is a number strictly
    below [a] or strictly above [b]. *)
Definition out_of_range (a b : number) (v : scalar) : Prop :=
  ∃ n, v = PNum n ∧
       (number_value n < number_value a ∨ number_value b < number_value n)%Qc.

Definition out_of_rangeb (a b : number) (v : scalar) : bool :=
  match v with
  | PNum n => cmp_number OpLt n a || cmp_number OpGt n b
  | _ => false
  end.

Global Instance out_of_range_dec (a b : number) (v : scalar) :
  Decision (out_of_range a b v).
Proof.
  refine (match v with
          | PNum n =>
              cast_if (decide (number_value n < number_value a ∨
                               number_value b < number_value n)%Qc)
          | _ => right _
          end); unfold out_of_range.
  - exists n. split; [reflexivity | assumption].
  - intros [m [Heq Hm]]. injection Heq as <-. contradiction.
  - intros [m [Heq _]]. discriminate.
  - intros [m [Heq _]]. discriminate.
Defined.

(** A value is a number within the bounds [a], [b]. *)
Definition in_bounds (a b : number) (v : scalar) : Prop :=
  ∃ n, v = PNum n ∧
       ¬ (number_value n < number_value a)%Qc ∧
       ¬ (number_value b < number_value n)%Qc.

(** The number a cell stands for: a number stands for itself, a text
    for what the parser reads in it, and a missing value or any other
    text for nothing. *)
Definition numeric_reading (v : scalar) : option number :=
  match v with
  | PNum n => Some n
  | PStr s => parse_numeric s
  | NaN => None
  end.



(** An integer that int64 and float64 both hold exactly. *)
Definition exact_number (n : number) : Prop :=
  match n with
  | NInt z => (Z.abs z ≤ 2 ^ 53)%Z
  | NFloat _ => True
  end.

Definition exact_cell (v : scalar) : Prop :=
  match numeric_reading v with
  | Some n => exact_number n
  | None => True
  end.

Global Instance exact_number_dec (n : number) : Decision (exact_number n).
Proof. destruct n; simpl; apply _. Defined.

Global Instance exact_cell_dec (v : scalar) : Decision (exact_cell v).
Proof. unfold exact_cell. destruct (numeric_reading v); apply _. Defined.

Definition is_float (v : scalar) : bool :=
  match v with PNum (NFloat _) => true | _ => false end.

(** A column that does not hold both an integer and a float. *)
Definition no_int_float_mix (vs : list scalar) : Prop :=
  ¬ (Exists (λ v, is_int v) vs ∧ Exists (λ v, is_float v) vs).

Global Instance no_int_float_mix_dec (vs : list scalar) :
  Decision (no_int_float_mix vs).
Proof. unfold no_int_float_mix. apply _. Defined.

(** *** Columns of a frame *)

Lemma get_col_is_Some {A} (c : string) (d : list (string * list A)) :
  c ∈ d.*1 ↔ is_Some (get_col c d).
Proof.
  induction d as [|[c' vs] d IH]; simpl.
  - split; [intros H; inversion H | intros [? ?]; discriminate].
  - destruct (decide (c' = c)) as [->|Hne].
    + split; [eauto | intros _; left].
    + rewrite <- IH, elem_of_cons.
      split; [intros [?|?]; [by subst|done] | by right].
Qed.

Lemma get_col_None {A} (c : string) (d : list (string * list A)) :
  c ∉ d.*1 ↔ get_col c d = None.
Proof. rewrite get_col_is_Some, eq_None_not_Some. done. Qed.

Lemma get_col_set_col_eq {A} (c : string) (vs : list A) d :
  get_col c (set_col c vs d) = Some vs.
Proof.
  induction d as [|[c' ws] d IH]; simpl.
  - by rewrite decide_True.
  - destruct (decide (c' = c)) as [->|Hne]; simpl.
    + by rewrite decide_True.
    + by rewrite decide_False.
Qed.

Lemma get_col_set_col_ne {A} (c c' : string) (vs : list A) d :
  c ≠ c' → get_col c (set_col c' vs d) = get_col c d.
Proof.
  intros Hne. induction d as [|[k ws] d IH]; simpl.
  - by rewrite decide_False.
  - destruct (decide (k = c')) as [->|]; simpl.
    + by rewrite !decide_False.
    + destruct (decide (k = c)); done.
Qed.

Lemma set_col_names {A} (c : string) (vs : list A) d :
  c ∈ d.*1 → (set_col c vs d).*1 = d.*1.
Proof.
  induction d as [|[k ws] d IH]; simpl.
  - intros H; inversion H.
  - intros H. destruct (decide (k = c)) as [->|Hne]; simpl; [done|].
    f_equal. apply IH. apply elem_of_cons in H as [?|?]; [congruence|done].
Qed.

Lemma set_col_id {A} (c : string) (vs : list A) d :
  get_col c d = Some vs → set_col c vs d = d.
Proof.
  induction d as [|[k ws] d IH]; simpl; [done|].
  destruct (decide (k = c)) as [->|Hne]; [congruence|].
  intros H. by rewrite IH.
Qed.

Lemma get_col_map {A B} (g : list A → list B) (c : string) d :
  get_col c (map (λ cv, (cv.1, g cv.2)) d) = g <$> get_col c d.
Proof.
  induction d as [|[k ws] d IH]; simpl; [done|].
  destruct (decide (k = c)); done.
Qed.

Lemma map_names {A B} (g : list A → list B) (d : list (string * list A)) :
  (map (λ cv, (cv.1, g cv.2)) d).*1 = d.*1.
Proof. induction d as [|[k ws] d IH]; [done|]. simpl. f_equal. exact IH. Qed.

Lemma getitem_list_present {A} (f : Frame A) (cols : list string) :
  Forall (λ c, c ∈ columns f) cols →
  getitem_list f cols =
    Ok (mkFrame (index f)
          (omap (λ c, (λ vs, (c, vs)) <$> get_col c (data f)) cols)).
Proof.
  intros Hall. unfold getitem_list.
  replace (filter (λ c, c ∉ columns f) cols) with (@nil string); [done|].
  symmetry. induction Hall as [|c cols Hc Hall IH]; [done|].
  rewrite filter_cons_False by (intros Hn; by apply Hn). done.
Qed.

Lemma getitem_list_absent {A} (f : Frame A) (cols : list string) (c : string) :
  c ∈ cols → c ∉ columns f →
  ∃ msg, getitem_list f cols = Err (KeyError msg).
Proof.
  intros Hin Hc. unfold getitem_list.
  destruct (filter (λ c, c ∉ columns f) cols) as [|m ms] eqn:E; [|eauto].
  assert (c ∈ filter (λ c, c ∉ columns f) cols) as Hf
    by (apply list_elem_of_filter; split; assumption).
  rewrite E in Hf. inversion Hf.
Qed.

(** *** Null counts *)

Lemma sum_bools_is_nan (vs : list scalar) :
  sum_bools (map is_nan vs) = length (filter (λ v, v = NaN) vs).
Proof.
  unfold sum_bools. induction vs as [|v vs IH]; [done|].
  destruct v;
    [rewrite filter_cons_False by done
    |rewrite filter_cons_False by done
    |rewrite filter_cons_True by done]; simpl; by rewrite ?IH.
Qed.

Lemma null_series_spec (d : list (string * list scalar)) (cols : list string) c n :
  (c, n) ∈ frame_sum (isnull (mkFrame (@nil nat)
      (omap (λ c, (λ vs, (c, vs)) <$> get_col c d) cols))) ↔
  c ∈ cols ∧ ∃ vs, get_col c d = Some vs ∧ n = length (filter (λ v, v = NaN) vs).
Proof.
  unfold frame_sum, isnull; simpl.
  rewrite list_elem_of_fmap. split.
  - intros [[k bs] [Heq Hin]]. simpl in Heq.
    apply list_elem_of_fmap in Hin as [[k' vs] [Heq' Hin]]. simpl in Heq'.
    apply list_elem_of_omap in Hin as [c' [Hc' Hsome]].
    destruct (get_col c' d) as [ws|] eqn:E; simpl in Hsome; [|done].
    simplify_eq. split; [done|]. exists vs. split; [done|].
    apply sum_bools_is_nan.
  - intros [Hin [vs [Hvs ->]]].
    exists (c, map is_nan vs). split.
    + simpl. by rewrite sum_bools_is_nan.
    + apply list_elem_of_fmap. exists (c, vs). split; [done|].
      apply list_elem_of_omap. exists c. split; [done|]. by rewrite Hvs.
Qed.

Lemma null_series_names (d : list (string * list scalar)) (cols : list string) idx :
  Forall (λ c, c ∈ d.*1) cols →
  (frame_sum (isnull (mkFrame idx
      (omap (λ c, (λ vs, (c, vs)) <$> get_col c d) cols)))).*1 = cols.
Proof.
  unfold frame_sum, isnull; simpl.
  induction 1 as [|c cols Hc Hall IH]; [done|].
  apply get_col_is_Some in Hc as [vs Hvs]. simpl. rewrite Hvs. simpl.
  f_equal. apply IH.
Qed.

(** C1. When the requested columns all exist, [check_nulls] returns one
    entry per requested column, in order, and the entry of a column
    is exactly the number of rows whose value in that column is
    missing; it is 0 for a column without missing values. *)
Theorem check_nulls_counts (df : DataFrame) (cols : list string) :
  Forall (λ c, c ∈ columns df) cols →
  ∃ s, (check_nulls cols df).1 = Ok s ∧ s.*1 = cols ∧
    ∀ c vs, c ∈ cols → get_col c (data df) = Some vs →
      (∀ n, (c, n) ∈ s ↔ n = length (filter (λ v, v = NaN) vs)) ∧
      (NaN ∉ vs → (c, 0%nat) ∈ s).
Proof.
  intros Hall. unfold check_nulls, bind, get_df, lift, ret.
  rewrite (getitem_list_present df cols Hall). simpl.
  eexists. split; [reflexivity|]. split.
  - by apply null_series_names.
  - intros c vs Hc Hvs.
    assert (∀ n, (c, n) ∈ frame_sum (isnull (mkFrame (index df)
              (omap (λ c, (λ vs, (c, vs)) <$> get_col c (data df)) cols))) ↔
            n = length (filter (λ v, v = NaN) vs)) as Hspec.
    { intros n. etransitivity; [apply (null_series_spec (data df) cols c n)|].
      split; [intros [_ [ws [Hws ->]]]; congruence | intros ->; eauto]. }
    split; [exact Hspec|].
    intros Hnone. apply Hspec. symmetry. apply length_zero_iff_nil.
    induction vs as [|v vs IH] in Hnone |- *; [done|].
    rewrite filter_cons_False.
    + apply IH. intros H. apply Hnone. by right.
    + intros ->. apply Hnone. by left.
Qed.

(** *** The most frequent type *)

Lemma elem_of_unique {A} `{EqDecision A} (l : list A) x : x ∈ unique l ↔ x ∈ l.
Proof.
  induction l as [|y l IH]; simpl; [done|].
  rewrite !elem_of_cons, list_elem_of_filter, IH.
  destruct (decide (x = y)); intuition.
Qed.

Lemma NoDup_unique {A} `{EqDecision A} (l : list A) : NoDup (unique l).
Proof.
  induction l as [|y l IH]; simpl; [constructor|].
  constructor.
  - rewrite list_elem_of_filter. intros [Hy _]. by apply Hy.
  - by apply NoDup_filter.
Qed.

Lemma foldr_max_elem (l : list nat) : l ≠ [] → foldr max 0%nat l ∈ l.
Proof.
  induction l as [|a l IH]; [done|]. intros _. simpl.
  destruct l as [|b l]; [simpl; rewrite Nat.max_0_r; left|].
  destruct (Nat.max_spec a (foldr max 0%nat (b :: l))) as [[_ ->]|[_ ->]].
  - right. by apply IH.
  - left.
Qed.

Lemma mode_nonempty {A} `{EqDecision A} (l : list A) : l ≠ [] → mode l ≠ [].
Proof.
  intros Hl. unfold mode.
  assert (foldr max 0%nat (map (λ x, count_eq x l) l) ∈ map (λ x, count_eq x l) l)
    as Hin by (apply foldr_max_elem; by destruct l).
  apply (list_elem_of_fmap (λ x, count_eq x l)) in Hin as [x [Hx Hxl]].
  intros Hnil.
  assert (x ∈ filter (λ y, count_eq y l =
            foldr max 0%nat (map (λ x, count_eq x l) l)) (unique l)) as Hf.
  { apply list_elem_of_filter. split; [done|]. by apply elem_of_unique. }
  rewrite Hnil in Hf. inversion Hf.
Qed.

Lemma mode_elem {A} `{EqDecision A} (l : list A) x : x ∈ mode l → x ∈ l.
Proof.
  unfold mode. rewrite list_elem_of_filter, elem_of_unique. tauto.
Qed.

Lemma dropna_spec (vs : list scalar) v : v ∈ dropna vs ↔ v ≠ NaN ∧ v ∈ vs.
Proof. exact (list_elem_of_filter (λ v, v ≠ NaN) vs v). Qed.

Lemma actual_type_name_empty (vs : list scalar) :
  dropna vs = [] → actual_type_name vs = Err (KeyError "0").
Proof. intros H. unfold actual_type_name. rewrite H. reflexivity. Qed.

Lemma actual_type_name_total (vs : list scalar) :
  dropna vs ≠ [] → ∃ T v, v ∈ vs ∧ v ≠ NaN ∧ type_of v = T ∧
                          actual_type_name vs = Ok (type_name T).
Proof.
  intros H. unfold actual_type_name.
  assert (map type_of (dropna vs) ≠ []) as Hm by (by destruct (dropna vs)).
  pose proof (mode_nonempty _ Hm) as Hmode.
  destruct (mode (map type_of (dropna vs))) as [|T ts] eqn:E; [done|].
  assert (T ∈ map type_of (dropna vs)) as HT
    by (apply mode_elem; rewrite E; left).
  apply (list_elem_of_fmap type_of) in HT as [v [-> Hv]].
  apply dropna_spec in Hv as [Hnan Hv].
  exists (type_of v), v. done.
Qed.

Lemma actual_type_name_err (vs : list scalar) e :
  actual_type_name vs = Err e → e = KeyError "0" ∧ dropna vs = [].
Proof.
  intros H. destruct (decide (dropna vs = [])) as [Hd|Hd].
  - rewrite (actual_type_name_empty _ Hd) in H. by simplify_eq.
  - destruct (actual_type_name_total _ Hd) as (T & v & _ & _ & _ & Hok).
    congruence.
Qed.


Lemma type_name_inj (T T' : pytype) : type_name T = type_name T' → T = T'.
Proof. by destruct T, T'. Qed.

(** *** The type check, rule by rule *)

Lemma type_rule_spec (acc : gmap string string) (col t : string) (df : DataFrame) :
  type_rule acc col t df =
    (match get_col col (data df) with
     | None => Ok acc
     | Some vs =>
         match type_outcome vs t with
         | Ok (Some msg) => Ok (<[col := msg]> acc)
         | Ok None => Ok acc
         | Err e => Err e
         end
     end, df).
Proof.
  unfold type_rule, bind, get_df, lift, ret, getitem, type_outcome, result_bind.
  destruct (decide (col ∈ columns df)) as [Hin|Hnin].
  - apply get_col_is_Some in Hin as [vs Hvs]. rewrite Hvs.
    destruct (actual_type_name vs) as [a|e]; [|done].
    destruct (decide (a ≠ t)); done.
  - apply get_col_None in Hnin. by rewrite Hnin.
Qed.

Lemma types_loop_state items : ∀ acc df,
  (for_items type_rule acc items df).2 = df.
Proof.
  induction items as [|[c t] items IH]; intros acc df; simpl; [done|].
  unfold bind. rewrite type_rule_spec.
  destruct (get_col c (data df)) as [vs|]; [|apply IH].
  destruct (type_outcome vs t) as [[msg|]|e]; [apply IH|apply IH|done].
Qed.

Lemma types_loop_skip items : ∀ acc df,
  for_items type_rule acc items df =
  for_items type_rule acc (filter (λ r, r.1 ∈ columns df) items) df.
Proof.
  induction items as [|[c t] items IH]; intros acc df; [done|].
  destruct (decide (c ∈ columns df)) as [Hin|Hnin].
  - rewrite filter_cons_True by done. simpl. unfold bind.
    destruct (type_rule acc c t df) as [[acc'|e] df'] eqn:E; [|done].
    rewrite type_rule_spec in E.
    assert (df' = df) as -> by congruence. apply IH.
  - rewrite filter_cons_False by done. simpl. unfold bind.
    rewrite type_rule_spec. apply get_col_None in Hnin. rewrite Hnin. apply IH.
Qed.

Lemma types_loop_lookup items : ∀ acc df m,
  NoDup items.*1 →
  (for_items type_rule acc items df).1 = Ok m →
  (∀ c, c ∉ items.*1 → m !! c = acc !! c) ∧
  (∀ c t, (c, t) ∈ items →
     m !! c = match get_col c (data df) with
              | None => acc !! c
              | Some vs =>
                  match type_outcome vs t with
                  | Ok (Some msg) => Some msg
                  | _ => acc !! c
                  end
              end).
Proof.
  induction items as [|[k v] items IH]; intros acc df m Hnd Hrun.
  - simpl in Hrun. simplify_eq. split; [done|]. intros c t H. inversion H.
  - simpl in Hnd. apply NoDup_cons in Hnd as [Hk Hnd].
    simpl in Hrun. unfold bind in Hrun. rewrite type_rule_spec in Hrun.
    set (acc' := match get_col k (data df) with
                 | None => acc
                 | Some vs => match type_outcome vs v with
                              | Ok (Some msg) => <[k := msg]> acc
                              | _ => acc
                              end
                 end).
    assert ((for_items type_rule acc' items df).1 = Ok m) as Hrun'.
    { subst acc'. destruct (get_col k (data df)) as [vs|]; [|done].
      destruct (type_outcome vs v) as [[msg|]|e]; done. }
    destruct (IH acc' df m Hnd Hrun') as [IH1 IH2].
    assert (∀ c, c ≠ k → acc' !! c = acc !! c) as Hother.
    { intros c Hc. subst acc'. destruct (get_col k (data df)) as [vs|]; [|done].
      destruct (type_outcome vs v) as [[msg|]|e]; [|done|done].
      by rewrite lookup_insert_ne. }
    split.
    + intros c Hc. simpl in Hc. apply not_elem_of_cons in Hc as [Hck Hc].
      rewrite (IH1 c Hc). by apply Hother.
    + intros c t Hin. apply elem_of_cons in Hin as [Heq|Hin].
      * simplify_eq. rewrite (IH1 k Hk). subst acc'.
        destruct (get_col k (data df)) as [vs|]; [|done].
        destruct (type_outcome vs v) as [[msg|]|e]; [|done|done].
        by rewrite lookup_insert_eq.
      * assert (c ≠ k) as Hck.
        { intros ->. apply Hk. apply list_elem_of_fmap. by exists (k, t). }
        rewrite (IH2 c t Hin), (Hother c Hck). done.
Qed.

Lemma types_loop_total items : ∀ acc df,
  (∀ c t vs, (c, t) ∈ items → get_col c (data df) = Some vs → dropna vs ≠ []) →
  ∃ m, (for_items type_rule acc items df).1 = Ok m.
Proof.
  induction items as [|[k v] items IH]; intros acc df Hne; simpl; [by eexists|].
  unfold bind. rewrite type_rule_spec.
  assert (∀ c t vs, (c, t) ∈ items → get_col c (data df) = Some vs →
                    dropna vs ≠ []) as Hne'
    by (intros c t vs H; apply (Hne c t vs); by right).
  destruct (get_col k (data df)) as [vs|] eqn:E; [|by apply IH].
  destruct (actual_type_name_total vs) as (T & w & _ & _ & _ & Hok).
  { apply (Hne k v); [left|done]. }
  unfold type_outcome. rewrite Hok. simpl.
  destruct (decide (type_name T ≠ v)); by apply IH.
Qed.

Lemma types_loop_error items : ∀ acc df c t vs,
  (c, t) ∈ items → get_col c (data df) = Some vs → dropna vs = [] →
  (for_items type_rule acc items df).1 = Err (KeyError "0").
Proof.
  induction items as [|[k v] items IH]; intros acc df c t vs Hin Hvs Hd.
  - inversion Hin.
  - simpl. unfold bind. rewrite type_rule_spec.
    destruct (decide ((c, t) = (k, v))) as [Heq|Hneq].
    + simplify_eq. rewrite Hvs. unfold type_outcome.
      by rewrite (actual_type_name_empty _ Hd).
    + apply elem_of_cons in Hin as [?|Hin]; [done|].
      destruct (get_col k (data df)) as [ws|] eqn:E; [|by eapply IH].
      unfold type_outcome.
      destruct (actual_type_name ws) as [a|e] eqn:Ea; simpl.
      * destruct (decide (a ≠ v)); by eapply IH.
      * by apply actual_type_name_err in Ea as [-> _].
Qed.

(** *** The range check, rule by rule *)

Lemma set_col_nonempty {A} (c : string) (vs : list A) d : set_col c vs d ≠ [].
Proof. destruct d as [|[k ws] d]; simpl; [done|]. by destruct (decide (k = c)). Qed.

Lemma range_body_spec (acc : gmap string range_entry) (col : string)
    (lo hi : scalar) (df : DataFrame) (vs : list scalar) :
  get_col col (data df) = Some vs →
  range_body acc col lo hi df =
    (match range_outcome (index df) col vs lo hi with
     | Ok None => Ok acc
     | Ok (Some f) => Ok (<[col := Violations f]> acc)
     | Err e => Err e
     end, setitem df col (to_numeric vs)).
Proof.
  intros Hvs.
  unfold range_body, range_outcome, bind, get_df, put_df, lift, ret, getitem.
  rewrite Hvs. simpl. rewrite get_col_set_col_eq.
  destruct (series_cmp OpLt (to_numeric vs) lo) as [below|e]; simpl; [|done].
  destruct (series_cmp OpGt (to_numeric vs) hi) as [above|e]; simpl; [|done].
  set (mask := series_or below above).
  unfold frame_empty, bool_index, getitem_list, columns, setitem. cbn [index data].
  set (D := map (λ cv : string * list scalar, (cv.1, mask_filter mask cv.2))
                (set_col col (to_numeric vs) (data df))).
  assert (get_col col D = Some (mask_filter mask (to_numeric vs))) as HD
    by (subst D; by rewrite get_col_map, get_col_set_col_eq).
  assert (col ∈ D.*1) as Hin by (apply get_col_is_Some; eauto).
  destruct (mask_filter mask (index df)) as [|k ks] eqn:Ek; [done|].
  destruct D as [|cv D'] eqn:ED; [inversion Hin|]. cbn [negb].
  rewrite filter_cons_False by (intros Hn; by apply Hn).
  rewrite filter_nil. cbn [omap list_omap]. rewrite HD. done.
Qed.

Lemma range_rule_spec (acc : gmap string range_entry) (col : string)
    (bounds : scalar * scalar) (df : DataFrame) :
  range_rule acc col bounds df =
    match get_col col (data df) with
    | None => (Ok acc, df)
    | Some vs =>
        (Ok (match range_entry_of (index df) col vs bounds with
             | Some e => <[col := e]> acc
             | None => acc
             end), setitem df col (to_numeric vs))
    end.
Proof.
  destruct bounds as [lo hi]. unfold range_rule, bind, get_df, try_except, ret.
  destruct (decide (col ∈ columns df)) as [Hin|Hnin].
  - apply get_col_is_Some in Hin as [vs Hvs]. rewrite Hvs.
    rewrite (range_body_spec acc col lo hi df vs Hvs).
    unfold range_entry_of. simpl.
    destruct (range_outcome (index df) col vs lo hi) as [[f|]|e]; done.
  - apply get_col_None in Hnin. by rewrite Hnin.
Qed.

Lemma setitem_columns (df : DataFrame) (c : string) (vs : list scalar) :
  c ∈ columns df → columns (setitem df c vs) = columns df.
Proof. intros H. unfold columns, setitem. simpl. by apply set_col_names. Qed.

(** The loop never fails, keeps the column names, and adds no entry
    for a name that is not a column. *)
Lemma ranges_loop_total items : ∀ acc df,
  ∃ m df', for_items range_rule acc items df = (Ok m, df') ∧
           index df' = index df ∧ columns df' = columns df ∧
           (∀ c, c ∉ columns df → m !! c = acc !! c).
Proof.
  induction items as [|[k b] items IH]; intros acc df; simpl.
  - exists acc, df. done.
  - unfold bind. rewrite range_rule_spec.
    destruct (get_col k (data df)) as [vs|] eqn:E.
    + set (acc' := match range_entry_of (index df) k vs b with
                   | Some e => <[k := e]> acc
                   | None => acc
                   end).
      destruct (IH acc' (setitem df k (to_numeric vs)))
        as (m & df' & Hrun & Hidx & Hcols & Hm).
      assert (k ∈ columns df) as Hk by (apply get_col_is_Some; eauto).
      exists m, df'. rewrite Hrun. split; [done|]. split; [done|].
      rewrite Hcols, (setitem_columns _ _ _ Hk). split; [done|].
      intros c Hc. rewrite Hm by (by rewrite setitem_columns).
      subst acc'. destruct (range_entry_of (index df) k vs b); [|done].
      apply lookup_insert_ne. intros ->. done.
    + destruct (IH acc df) as (m & df' & Hrun & Hidx & Hcols & Hm).
      exists m, df'. by rewrite Hrun.
Qed.

Lemma ranges_loop_skip items : ∀ acc df,
  for_items range_rule acc items df =
  for_items range_rule acc (filter (λ r, r.1 ∈ columns df) items) df.
Proof.
  induction items as [|[k b] items IH]; intros acc df; [done|].
  destruct (decide (k ∈ columns df)) as [Hin|Hnin].
  - rewrite filter_cons_True by done. simpl. unfold bind.
    rewrite range_rule_spec.
    apply get_col_is_Some in Hin as Hsome. destruct Hsome as [vs Hvs].
    rewrite Hvs. rewrite IH. by rewrite setitem_columns.
  - rewrite filter_cons_False by done. simpl. unfold bind.
    rewrite range_rule_spec. apply get_col_None in Hnin. rewrite Hnin. apply IH.
Qed.

(** With pairwise distinct rule names, every rule sees its column as
    it was in the initial dataset. *)
Lemma ranges_loop_lookup items : ∀ acc df m df',
  NoDup items.*1 →
  for_items range_rule acc items df = (Ok m, df') →
  (∀ c, c ∉ items.*1 →
     m !! c = acc !! c ∧ get_col c (data df') = get_col c (data df)) ∧
  (∀ c b, (c, b) ∈ items →
     get_col c (data df') = to_numeric <$> get_col c (data df) ∧
     m !! c = match get_col c (data df) with
              | None => acc !! c
              | Some vs =>
                  match range_entry_of (index df) c vs b with
                  | Some e => Some e
                  | None => acc !! c
                  end
              end).
Proof.
  induction items as [|[k v] items IH]; intros acc df m df' Hnd Hrun.
  - simpl in Hrun. unfold ret in Hrun. simplify_eq.
    split; [done|]. intros c b H. inversion H.
  - simpl in Hnd. apply NoDup_cons in Hnd as [Hk Hnd].
    simpl in Hrun. unfold bind in Hrun. rewrite range_rule_spec in Hrun.
    destruct (get_col k (data df)) as [vs|] eqn:E.
    + set (acc' := match range_entry_of (index df) k vs v with
                   | Some e => <[k := e]> acc
                   | None => acc
                   end) in *.
      destruct (IH acc' _ m df' Hnd Hrun) as [IH1 IH2].
      assert (∀ c, c ≠ k → acc' !! c = acc !! c) as Hother.
      { intros c Hc. subst acc'.
        destruct (range_entry_of (index df) k vs v); [|done].
        by rewrite lookup_insert_ne. }
      split.
      * intros c Hc. simpl in Hc. apply not_elem_of_cons in Hc as [Hck Hc].
        destruct (IH1 c Hc) as [-> ->]. split; [by apply Hother|].
        simpl. by apply get_col_set_col_ne.
      * intros c b Hin. apply elem_of_cons in Hin as [Heq|Hin].
        -- injection Heq as -> ->. destruct (IH1 k Hk) as [-> ->]. simpl.
           rewrite get_col_set_col_eq, E. split; [done|].
           subst acc'. destruct (range_entry_of (index df) k vs v); [|done].
           by rewrite lookup_insert_eq.
        -- assert (c ≠ k) as Hck.
           { intros ->. apply Hk. apply list_elem_of_fmap. by exists (k, b). }
           destruct (IH2 c b Hin) as [-> ->]. simpl.
           rewrite (get_col_set_col_ne c k) by done.
           rewrite (Hother c Hck). done.
    + destruct (IH acc df m df' Hnd Hrun) as [IH1 IH2].
      split.
      * intros c Hc. simpl in Hc. apply not_elem_of_cons in Hc as [Hck Hc].
        by apply IH1.
      * intros c b Hin. apply elem_of_cons in Hin as [Heq|Hin].
        -- injection Heq as -> ->. destruct (IH1 k Hk) as [-> ->]. by rewrite E.
        -- by apply IH2.
Qed.

(** *** Coercion and comparison against numeric bounds *)

Lemma coerce_not_str (v : scalar) (s : string) : coerce v ≠ PStr s.
Proof.
  destruct v as [n|t|]; simpl; [done| |done].
  by destruct (parse_numeric t).
Qed.

Lemma to_numeric_map (vs : list scalar) :
  to_numeric vs = map coerce vs ∨
  to_numeric vs = map (λ v, as_float (coerce v)) vs.
Proof.
  unfold to_numeric. destruct (forallb is_int (map coerce vs)); [by left|].
  right. apply map_map.
Qed.

Lemma to_numeric_length (vs : list scalar) : length (to_numeric vs) = length vs.
Proof. destruct (to_numeric_map vs) as [-> | ->]; apply length_map. Qed.

Lemma to_numeric_not_str (vs : list scalar) :
  Forall (λ v, ∀ s, v ≠ PStr s) (to_numeric vs).
Proof.
  destruct (to_numeric_map vs) as [-> | ->]; apply Forall_fmap, Forall_forall;
    intros v _ s; simpl.
  - apply coerce_not_str.
  - pose proof (coerce_not_str v) as H. destruct (coerce v); simpl; [done| |done].
    by specialize (H s0).
Qed.

(** A value that is a number keeps its numeric value under coercion. *)
Lemma to_numeric_in_bounds (a b : number) (vs : list scalar) :
  Forall (in_bounds a b) vs → Forall (in_bounds a b) (to_numeric vs).
Proof.
  intros Hall.
  destruct (to_numeric_map vs) as [-> | ->]; apply Forall_fmap;
    (eapply Forall_impl; [exact Hall|]); intros v (n & -> & Hlo & Hhi); simpl.
  - by exists n.
  - exists (NFloat (number_value n)). done.
Qed.


Lemma series_cmp_num (op : cmp_op) (xs : list scalar) (b : number) :
  Forall (λ v, ∀ s, v ≠ PStr s) xs →
  series_cmp op xs (PNum b) =
    Ok (map (λ x, match x with PNum n => cmp_number op n b | _ => false end) xs).
Proof.
  unfold series_cmp. induction 1 as [|x xs Hx Hxs IH]; [done|].
  simpl. rewrite IH. destruct x as [n|s|]; simpl; [done| |done].
  by specialize (Hx s).
Qed.

Lemma series_or_map {A} (f g : A → bool) (xs : list A) :
  series_or (map f xs) (map g xs) = map (λ x, f x || g x) xs.
Proof. unfold series_or. induction xs as [|x xs IH]; simpl; congruence. Qed.

Lemma out_of_rangeb_spec (a b : number) (v : scalar) :
  out_of_rangeb a b v = bool_decide (out_of_range a b v).
Proof.
  destruct v as [n|s|]; simpl.
  - unfold cmp_number.
    destruct (decide (out_of_range a b (PNum n))) as [(m & Heq & Hm)|Hn].
    + injection Heq as <-. rewrite (bool_decide_eq_true_2 (out_of_range _ _ _));
        [|by exists n].
      destruct Hm as [Hm|Hm].
      * by rewrite (bool_decide_eq_true_2 _ Hm).
      * rewrite (bool_decide_eq_true_2 _ Hm). apply orb_true_r.
    + rewrite (bool_decide_eq_false_2 _ Hn).
      apply orb_false_iff. split; apply bool_decide_eq_false_2;
        intros Hm; apply Hn; exists n; eauto.
  - reflexivity.
  - reflexivity.
Qed.

Lemma range_outcome_num (idx : list nat) (col : string) (vs : list scalar)
    (a b : number) :
  range_outcome idx col vs (PNum a) (PNum b) =
    let mask := map (λ x, bool_decide (out_of_range a b x)) (to_numeric vs) in
    match mask_filter mask idx with
    | [] => Ok None
    | _ => Ok (Some (mkFrame (mask_filter mask idx)
                       [(col, mask_filter mask (to_numeric vs))]))
    end.
Proof.
  unfold range_outcome.
  rewrite !series_cmp_num by apply to_numeric_not_str.
  cbn [result_bind]. cbv zeta. rewrite series_or_map.
  replace (map (λ x, match x with PNum n => cmp_number OpLt n a | _ => false end
                      || match x with PNum n => cmp_number OpGt n b | _ => false end)
               (to_numeric vs))
    with (map (λ x, bool_decide (out_of_range a b x)) (to_numeric vs)); [done|].
  apply map_ext. intros x. rewrite <- out_of_rangeb_spec. by destruct x.
Qed.

Lemma mask_filter_zip {A B} (P : B → Prop) `{∀ x, Decision (P x)}
    (idx : list A) (xs : list B) :
  length idx = length xs →
  mask_filter (map (λ x, bool_decide (P x)) xs) idx
    = (filter (λ iv, P iv.2) (zip idx xs)).*1 ∧
  mask_filter (map (λ x, bool_decide (P x)) xs) xs
    = (filter (λ iv, P iv.2) (zip idx xs)).*2.
Proof.
  revert idx. induction xs as [|x xs IH]; intros [|k idx] Hlen;
    simpl in Hlen; try discriminate; [done|].
  destruct (IH idx) as [IH1 IH2]; [congruence|].
  cbn [map mask_filter zip zip_with]. destruct (decide (P x)) as [Hx|Hx].
  - rewrite bool_decide_eq_true_2 by done.
    rewrite filter_cons_True by done. simpl. by rewrite IH1, IH2.
  - rewrite bool_decide_eq_false_2 by done.
    rewrite filter_cons_False by done. done.
Qed.

Lemma mask_filter_none {A B} (P : B → Prop) `{∀ x, Decision (P x)}
    (idx : list A) (xs : list B) :
  Forall (λ x, ¬ P x) xs →
  mask_filter (map (λ x, bool_decide (P x)) xs) idx = [].
Proof.
  intros Hall. revert idx. induction Hall as [|x xs Hx Hall IH]; intros [|k idx];
    simpl; try done.
  rewrite bool_decide_eq_false_2 by done. apply IH.
Qed.

Lemma in_bounds_not_out (a b : number) (v : scalar) :
  in_bounds a b v → ¬ out_of_range a b v.
Proof.
  intros (n & -> & Hlo & Hhi) (m & Heq & Hm). injection Heq as <-.
  destruct Hm; contradiction.
Qed.

Lemma range_entry_in_bounds (idx : list nat) (col : string) (vs : list scalar)
    (a b : number) :
  Forall (in_bounds a b) vs →
  range_entry_of idx col vs (PNum a, PNum b) = None.
Proof.
  intros Hall. unfold range_entry_of. simpl. rewrite range_outcome_num. simpl.
  rewrite mask_filter_none; [done|].
  eapply Forall_impl; [apply to_numeric_in_bounds, Hall|].
  intros v. apply in_bounds_not_out.
Qed.

(** *** Rows and groups *)

Lemma omap_ext_in {A B} (f g : A → option B) (l : list A) :
  (∀ x, x ∈ l → f x = g x) → omap f l = omap g l.
Proof.
  induction l as [|x l IH]; intros Hfg; [done|]. csimpl.
  rewrite (Hfg x) by left. rewrite IH; [done|].
  intros y Hy. apply Hfg. by right.
Qed.

Lemma omap_get_col_all {A} (d : list (string * list A)) :
  NoDup d.*1 → omap (λ c, (λ vs, (c, vs)) <$> get_col c d) d.*1 = d.
Proof.
  induction d as [|[c vs] d IH]; [done|]. simpl.
  intros Hnd. apply NoDup_cons in Hnd as [Hc Hnd].
  rewrite decide_True by done. simpl. f_equal.
  rewrite <- (IH Hnd) at 2. apply omap_ext_in.
  intros x Hx. rewrite decide_False; [done|]. by intros ->.
Qed.

Lemma getitem_list_all {A} (f : Frame A) :
  NoDup (columns f) → getitem_list f (columns f) = Ok f.
Proof.
  intros Hnd. rewrite getitem_list_present by (by apply Forall_forall).
  unfold columns. rewrite omap_get_col_all by done. by destruct f.
Qed.

Lemma mask_filter_replicate {A B} (mask : list bool) (l : list A) (x : B) :
  mask_filter mask (replicate (length l) x)
    = replicate (length (mask_filter mask l)) x.
Proof.
  revert l. induction mask as [|b mask IH]; intros [|y l]; simpl; try done.
  destruct b; simpl; by rewrite IH.
Qed.

Lemma mask_filter_zip_with {A B C} (f : A → B → C) (mask : list bool)
    (xs : list A) (ys : list B) :
  mask_filter mask (zip_with f xs ys)
    = zip_with f (mask_filter mask xs) (mask_filter mask ys).
Proof.
  revert xs ys. induction mask as [|b mask IH]; intros [|x xs] [|y ys]; simpl;
    try done.
  - destruct b; [done|]. by destruct (mask_filter mask xs).
  - destruct b; simpl; by rewrite IH.
Qed.

Lemma rows_bool_index {A} (f : Frame A) (mask : list bool) :
  rows (bool_index f mask) = mask_filter mask (rows f).
Proof.
  unfold rows, bool_index. simpl.
  induction (data f) as [|[c vs] d IH]; simpl.
  - symmetry. apply mask_filter_replicate.
  - rewrite IH. symmetry. apply mask_filter_zip_with.
Qed.

Lemma mask_filter_decide {A} (P : A → Prop) `{∀ x, Decision (P x)} (l : list A) :
  mask_filter (map (λ x, bool_decide (P x)) l) l = filter P l.
Proof.
  induction l as [|x l IH]; [done|]. simpl.
  destruct (decide (P x)).
  - rewrite bool_decide_eq_true_2, filter_cons_True by done. by rewrite IH.
  - rewrite bool_decide_eq_false_2, filter_cons_False by done. done.
Qed.

Lemma count_eq_filter {A} `{EqDecision A} (Q : A → Prop) `{∀ x, Decision (Q x)}
    (t : A) (l : list A) :
  Q t → count_eq t (filter Q l) = count_eq t l.
Proof.
  intros Ht. unfold count_eq. induction l as [|x l IH]; [done|].
  destruct (decide (x = t)) as [->|Hne].
  - rewrite (filter_cons_True Q) by done.
    rewrite !(filter_cons_True (λ y, y = t)) by done. simpl. by rewrite IH.
  - rewrite (filter_cons_False (λ y, y = t) x l) by done.
    destruct (decide (Q x)).
    + rewrite (filter_cons_True Q) by done.
      by rewrite (filter_cons_False (λ y, y = t)) by done.
    + by rewrite (filter_cons_False Q) by done.
Qed.

Lemma count_eq_pos {A} `{EqDecision A} (t : A) (l : list A) :
  (0 < count_eq t l)%nat ↔ t ∈ l.
Proof.
  unfold count_eq. split.
  - intros Hpos. destruct (filter (λ y, y = t) l) as [|y ys] eqn:E;
      [simpl in Hpos; lia|].
    assert (y ∈ filter (λ y, y = t) l) as Hy by (rewrite E; left).
    apply list_elem_of_filter in Hy as [-> Hy]. done.
  - intros Hin.
    assert (t ∈ filter (λ y, y = t) l) as Hy by (by apply list_elem_of_filter).
    destruct (filter (λ y, y = t) l); [inversion Hy|simpl; lia].
Qed.

Lemma NoDup_group_keys {A B} (g : A → B) (l : list A) :
  NoDup l → NoDup (map (λ k, (k, g k)) l).*1.
Proof.
  intros Hnd. replace ((map (λ k, (k, g k)) l).*1) with l; [done|].
  induction l as [|x l IH]; [done|]. simpl. f_equal. apply IH.
  by apply NoDup_cons in Hnd as [_ ?].
Qed.

(** What [check_duplicates] returns on a dataset with pairwise
    distinct column names, at least one column, and no column called
    [dup_count]: one entry per row value that occurs at least twice
    and has no missing component, with the number of its occurrences. *)
Lemma check_duplicates_spec (df : DataFrame) :
  NoDup (columns df) → columns df ≠ [] → "dup_count" ∉ columns df →
  ∃ tbl, check_duplicates df = (Ok tbl, df) ∧
    dup_header tbl = (columns df ++ ["dup_count"])%list ∧
    NoDup (dup_rows tbl).*1 ∧
    ∀ t n, (t, n) ∈ dup_rows tbl ↔
           n = count_eq t (rows df) ∧ (2 ≤ n)%nat ∧ NaN ∉ t.
Proof using sort_groups_perm.
  intros Hnd Hne Hname.
  unfold check_duplicates, bind, get_df, lift, ret, groupby_size.
  destruct (columns df) as [|c0 cs] eqn:Ecols; [done|]. rewrite <- Ecols.
  assert (columns (bool_index df (duplicated (rows df))) = columns df) as Hcols
    by (unfold columns, bool_index; simpl; apply map_names).
  assert (getitem_list (bool_index df (duplicated (rows df))) (columns df)
          = Ok (bool_index df (duplicated (rows df)))) as Hsel.
  { rewrite <- Hcols. apply getitem_list_all. by rewrite Hcols, Ecols. }
  rewrite Hsel. cbn [result_bind]. unfold reset_index. cbn [fst snd].
  rewrite decide_False by (by rewrite Ecols).
  eexists. split; [reflexivity|]. cbn [dup_header dup_rows].
  split; [done|].
  rewrite rows_bool_index. unfold duplicated.
  rewrite (mask_filter_decide (λ x, (2 ≤ count_eq x (rows df))%nat)).
  set (rs := filter (λ r, NaN ∉ r)
               (filter (λ x, (2 ≤ count_eq x (rows df))%nat) (rows df))).
  split.
  - rewrite (sort_groups_perm _). apply NoDup_group_keys, NoDup_unique.
  - intros t n. rewrite (sort_groups_perm _).
    rewrite (list_elem_of_fmap (λ k, (k, count_eq k rs))).
    assert (∀ k, k ∈ rs ↔ (NaN ∉ k) ∧ (2 ≤ count_eq k (rows df))%nat) as Hrs.
    { intros k. subst rs. rewrite !list_elem_of_filter.
      split; [by intros (? & ? & _)|]. intros [? ?]. split; [done|].
      split; [done|]. apply count_eq_pos. lia. }
    assert (∀ k, k ∈ rs → count_eq k rs = count_eq k (rows df)) as Hcount.
    { intros k Hk. apply Hrs in Hk as [Hk1 Hk2]. subst rs.
      rewrite (count_eq_filter (λ r, NaN ∉ r)) by done.
      by rewrite (count_eq_filter (λ x, (2 ≤ count_eq x (rows df))%nat)). }
    split.
    + intros [k [Heq Hk]]. rewrite elem_of_unique in Hk.
      injection Heq as -> ->. rewrite (Hcount _ Hk).
      apply Hrs in Hk as [? ?]. done.
    + intros (-> & Hn & Hnan). exists t.
      assert (t ∈ rs) as Ht by (by apply Hrs).
      split; [by rewrite Hcount|by apply elem_of_unique].
Qed.

Lemma types_loop_absent items : ∀ acc df m c,
  (for_items type_rule acc items df).1 = Ok m →
  c ∉ columns df → m !! c = acc !! c.
Proof.
  induction items as [|[k v] items IH]; intros acc df m c Hrun Hc.
  - simpl in Hrun. by simplify_eq.
  - simpl in Hrun. unfold bind in Hrun. rewrite type_rule_spec in Hrun.
    destruct (get_col k (data df)) as [vs|] eqn:E; [|by eapply IH].
    assert (c ≠ k) as Hck.
    { intros ->. apply Hc. apply get_col_is_Some. eauto. }
    destruct (type_outcome vs v) as [[msg|]|e]; [| by eapply IH | done].
    rewrite (IH _ _ _ _ Hrun Hc). by apply lookup_insert_ne.
Qed.

Lemma dropna_all_missing (vs : list scalar) :
  Forall (λ v, v = NaN) vs → dropna vs = [].
Proof.
  unfold dropna. induction 1 as [|v vs Hv Hall IH]; [done|].
  rewrite filter_cons_False by (by intros ?). exact IH.
Qed.

(** ** The claims *)


(** C8. When a rule targets an existing column whose values are all
    missing, [check_data_types] does not return a mapping: the lookup
    of the first element of the empty list of most frequent types
    fails, and the failure reaches the caller, with the dataset
    unchanged. *)
Theorem check_data_types_all_missing (df : DataFrame)
    (expected : list (string * string)) (col t : string) (vs : list scalar) :
  (col, t) ∈ expected → get_col col (data df) = Some vs →
  Forall (λ v, v = NaN) vs →
  check_data_types expected df = (Err (KeyError "0"), df).
Proof.
  intros Hcol Hvs Hall. unfold check_data_types.
  pose proof (types_loop_error expected ∅ df col t vs Hcol Hvs
                (dropna_all_missing vs Hall)) as H1.
  pose proof (types_loop_state expected ∅ df) as H2.
  destruct (for_items type_rule ∅ expected df) as [r df']. simpl in *.
  by subst.
Qed.

(** C6. A name that is not a column makes [check_nulls] fail with a
    [KeyError], which is a [LookupError]; [check_data_types] and
    [check_ranges] behave as if the rules for such names were not
    there, and their result has no entry for such a name. *)
Theorem missing_column_asymmetry (df : DataFrame) :
  (∀ cols c, c ∈ cols → c ∉ columns df →
     ∃ e, check_nulls cols df = (Err e, df) ∧ is_LookupError e = true) ∧
  (∀ expected,
     check_data_types expected df =
     check_data_types (filter (λ r, r.1 ∈ columns df) expected) df) ∧
  (∀ expected m c, (check_data_types expected df).1 = Ok m →
     c ∉ columns df → m !! c = None) ∧
  (∀ rules,
     check_ranges rules df =
     check_ranges (filter (λ r, r.1 ∈ columns df) rules) df) ∧
  (∀ rules c, c ∉ columns df →
     ∃ m df', check_ranges rules df = (Ok m, df') ∧ m !! c = None).
Proof.
  repeat split.
  - intros cols c Hc Hnc.
    destruct (getitem_list_absent df cols c Hc Hnc) as [msg Hmsg].
    exists (KeyError msg). unfold check_nulls, bind, get_df, lift.
    by rewrite Hmsg.
  - intros expected. apply types_loop_skip.
  - intros expected m c Hrun Hc.
    rewrite (types_loop_absent _ _ _ _ _ Hrun Hc). apply lookup_empty.
  - intros rules. apply ranges_loop_skip.
  - intros rules c Hc.
    destruct (ranges_loop_total rules ∅ df) as (m & df' & Hrun & _ & _ & Hm).
    exists m, df'. split; [done|]. rewrite (Hm c Hc). apply lookup_empty.
Qed.

Lemma get_col_elem {A} (c : string) (d : list (string * list A)) vs :
  get_col c d = Some vs → (c, vs) ∈ d.
Proof.
  induction d as [|[k ws] d IH]; simpl; [done|].
  destruct (decide (k = c)) as [->|Hne].
  - intros [= ->]. left.
  - intros H. right. by apply IH.
Qed.

Lemma frame_wf_length {A} (f : Frame A) (c : string) vs :
  frame_wf f → get_col c (data f) = Some vs → length vs = length (index f).
Proof.
  intros [_ Hall] Hvs. apply get_col_elem in Hvs.
  rewrite Forall_forall in Hall. exact (Hall _ Hvs).
Qed.

(** *** The numeric form of a column *)










(** C5. [check_ranges] always returns a mapping.  With pairwise
    distinct rule names, when the [try] block of an existing column
    raises, the column's entry is the text ["Error: "] followed by the
    exception's message; when it does not raise, the column's entry
    is the one the block computes, whatever happens for the other
    columns. *)
Theorem check_ranges_never_raises (df : DataFrame)
    (rules : list (string * (scalar * scalar))) :
  ∃ m df', check_ranges rules df = (Ok m, df') ∧
    (NoDup rules.*1 →
     ∀ col lo hi, (col, (lo, hi)) ∈ rules → col ∈ columns df →
       (∀ e, (range_body ∅ col lo hi df).1 = Err e →
             m !! col = Some (ErrorText ("Error: " +:+ exn_str e))) ∧
       (∀ m0, (range_body ∅ col lo hi df).1 = Ok m0 → m !! col = m0 !! col)).
Proof.
  destruct (ranges_loop_total rules ∅ df) as (m & df' & Hrun & _ & _ & _).
  exists m, df'. unfold check_ranges. split; [done|].
  intros Hnd col lo hi Hrule Hcol.
  destruct (ranges_loop_lookup _ _ _ _ _ Hnd Hrun) as [_ Hin].
  destruct (Hin _ _ Hrule) as [_ Hm].
  apply get_col_is_Some in Hcol as [vs Hvs]. rewrite Hvs in Hm.
  rewrite (range_body_spec ∅ col lo hi df vs Hvs). cbn [fst].
  unfold range_entry_of in Hm. cbn [fst snd] in Hm.
  destruct (range_outcome (index df) col vs lo hi) as [[f|]|e0].
  - split; [done|]. intros m0 [= <-]. by rewrite Hm, lookup_insert_eq.
  - split; [done|]. intros m0 [= <-]. done.
  - split; [|done]. intros e [= <-]. done.
Qed.

Lemma check_nulls_single (df : DataFrame) (col : string) (xs : list scalar) :
  get_col col (data df) = Some xs →
  check_nulls [col] df =
    (Ok [(col, length (filter (λ v, v = NaN) xs))], df).
Proof.
  intros Hxs. unfold check_nulls, bind, get_df, lift, ret.
  rewrite getitem_list_present.
  - cbn [omap list_omap]. rewrite Hxs. cbn. by rewrite sum_bools_is_nan.
  - apply Forall_singleton. apply get_col_is_Some. eauto.
Qed.


(** *** Running the range check again *)

Lemma coerce_id (v : scalar) : (∀ s, v ≠ PStr s) → coerce v = v.
Proof. destruct v as [n|s|]; [done| |done]. intros H. by specialize (H s). Qed.

Lemma as_float_idem (v : scalar) : as_float (as_float v) = as_float v.
Proof. by destruct v as [[z|q]|s|]. Qed.

Lemma to_numeric_idem (vs : list scalar) :
  to_numeric (to_numeric vs) = to_numeric vs.
Proof.
  pose proof (to_numeric_not_str vs) as Hns.
  assert (map coerce (to_numeric vs) = to_numeric vs) as Hc.
  { rewrite <- (map_id (to_numeric vs)) at 2. apply map_ext_Forall.
    eapply Forall_impl; [exact Hns|]. intros v. apply coerce_id. }
  unfold to_numeric at 1. rewrite Hc.
  destruct (forallb is_int (to_numeric vs)) eqn:E; [done|].
  revert E. unfold to_numeric.
  destruct (forallb is_int (map coerce vs)) eqn:E2; [intros E; congruence|].
  intros _.
  rewrite map_map. apply map_ext. intros v. apply as_float_idem.
Qed.

Lemma setitem_same (df : DataFrame) (c : string) (vs : list scalar) :
  get_col c (data df) = Some vs → setitem df c vs = df.
Proof. intros H. unfold setitem. rewrite set_col_id by done. by destruct df. Qed.

(** On columns that [to_numeric] leaves as they are, the loop does not
    change the dataset. *)
Lemma ranges_loop_fixed items : ∀ acc df,
  (∀ c b xs, (c, b) ∈ items → get_col c (data df) = Some xs →
             to_numeric xs = xs) →
  (for_items range_rule acc items df).2 = df.
Proof.
  induction items as [|[k v] items IH]; intros acc df Hfix; [done|].
  simpl. unfold bind. rewrite range_rule_spec.
  assert (∀ c b xs, (c, b) ∈ items → get_col c (data df) = Some xs →
                    to_numeric xs = xs) as Hfix'
    by (intros c b xs H; apply (Hfix c b xs); by right).
  destruct (get_col k (data df)) as [vs|] eqn:E; [|by apply IH].
  rewrite (Hfix k v vs) by (done || left).
  rewrite (setitem_same df k vs E). by apply IH.
Qed.

Lemma ranges_in_bounds_empty (df : DataFrame)
    (rules : list (string * (scalar * scalar))) :
  NoDup rules.*1 →
  (∀ col lo hi vs, (col, (lo, hi)) ∈ rules → get_col col (data df) = Some vs →
     ∃ a b, lo = PNum a ∧ hi = PNum b ∧ Forall (in_bounds a b) vs) →
  ∃ df1, check_ranges rules df = (Ok ∅, df1) ∧
    ∀ col bounds, (col, bounds) ∈ rules →
      get_col col (data df1) = to_numeric <$> get_col col (data df).
Proof.
  intros Hnd Hall.
  destruct (ranges_loop_total rules ∅ df) as (m & df1 & Hrun & _ & _ & _).
  destruct (ranges_loop_lookup _ _ _ _ _ Hnd Hrun) as [Hout Hin].
  exists df1. unfold check_ranges. rewrite Hrun. split.
  - f_equal. f_equal. apply map_eq. intros c. rewrite lookup_empty.
    destruct (decide (c ∈ rules.*1)) as [Hc|Hc].
    + apply list_elem_of_fmap in Hc as [[c' [lo hi]] [-> Hc]]. cbn [fst].
      destruct (Hin _ _ Hc) as [_ ->].
      destruct (get_col c' (data df)) as [vs|] eqn:E; [|done].
      destruct (Hall _ _ _ _ Hc E) as (a & b & -> & -> & Hb).
      by rewrite range_entry_in_bounds.
    + by destruct (Hout c Hc) as [-> _].
  - intros col bounds Hc. by destruct (Hin _ _ Hc).
Qed.

(** C10. Let the rule names be pairwise distinct, the bounds numeric,
    and every targeted existing column hold only numbers within its
    bounds.  Then [check_ranges] returns the empty mapping, and run
    again on the dataset it left, it returns the empty mapping again
    and leaves that dataset as it is. *)
Theorem check_ranges_twice_in_bounds (df : DataFrame)
    (rules : list (string * (scalar * scalar))) :
  NoDup rules.*1 →
  (∀ col lo hi vs, (col, (lo, hi)) ∈ rules → get_col col (data df) = Some vs →
     ∃ a b, lo = PNum a ∧ hi = PNum b ∧ Forall (in_bounds a b) vs) →
  ∃ df1, check_ranges rules df = (Ok ∅, df1) ∧
         check_ranges rules df1 = (Ok ∅, df1).
Proof.
  intros Hnd Hall.
  destruct (ranges_in_bounds_empty df rules Hnd Hall) as (df1 & Hrun1 & Hcols).
  exists df1. split; [done|].
  assert (∀ col lo hi vs, (col, (lo, hi)) ∈ rules →
            get_col col (data df1) = Some vs →
            ∃ a b, lo = PNum a ∧ hi = PNum b ∧ Forall (in_bounds a b) vs) as Hall1.
  { intros col lo hi xs Hc Hxs. rewrite (Hcols _ _ Hc) in Hxs.
    destruct (get_col col (data df)) as [vs|] eqn:E; [|done].
    injection Hxs as <-.
    destruct (Hall _ _ _ _ Hc E) as (a & b & -> & -> & Hb).
    exists a, b. split; [done|]. split; [done|]. by apply to_numeric_in_bounds. }
  destruct (ranges_in_bounds_empty df1 rules Hnd Hall1) as (df2 & Hrun2 & _).
  rewrite Hrun2. f_equal.
  assert ((check_ranges rules df1).2 = df1) as Hfix.
  { apply ranges_loop_fixed. intros c b xs Hc Hxs.
    rewrite (Hcols _ _ Hc) in Hxs.
    destruct (get_col c (data df)) as [vs|]; [|done].
    injection Hxs as <-. apply to_numeric_idem. }
  by rewrite Hrun2 in Hfix.
Qed.

(** *** Duplicated rows with a missing value *)

Lemma sort_groups_nil : sort_groups [] = [].
Proof using sort_groups_perm. apply Permutation_nil_r, sort_groups_perm. Qed.

Lemma sort_groups_singleton x : sort_groups [x] = [x].
Proof using sort_groups_perm. apply Permutation_singleton_r, sort_groups_perm. Qed.

(** C2, at a dataset the code mishandles.  In [sample_nan_df] the row
    value (1, missing) occurs twice, and [check_duplicates] returns a
    table without any entry for it. *)
Theorem check_duplicates_drops_missing_tuples :
  count_eq [pint 1; NaN] (rows sample_nan_df) = 2%nat ∧
  ∃ tbl, check_duplicates sample_nan_df = (Ok tbl, sample_nan_df) ∧
         ∀ n, ([pint 1; NaN], n) ∉ dup_rows tbl.
Proof using sort_groups_perm.
  split; [reflexivity|].
  destruct (check_duplicates_spec sample_nan_df) as (tbl & Hrun & _ & _ & Hspec).
  - compute_done.
  - done.
  - compute_done.
  - exists tbl. split; [done|]. intros n Hn.
    apply Hspec in Hn as (_ & _ & Hnan). apply Hnan. compute_done.
Qed.

(** C9, at a dataset the code mishandles.  Rows 0 and 1 of
    [sample_nan_df] both miss column [b] and agree on column [a];
    [duplicated] marks both, yet the table returned by
    [check_duplicates] is empty.  With the missing values replaced by
    a text the same two rows are reported, with count 2. *)
Theorem check_duplicates_missing_rows_lost :
  rows sample_nan_df !! 0%nat = Some [pint 1; NaN] ∧
  rows sample_nan_df !! 1%nat = Some [pint 1; NaN] ∧
  duplicated (rows sample_nan_df) = [true; true; false] ∧
  check_duplicates sample_nan_df =
    (Ok (mkDupTable ["a"; "b"; "dup_count"] []), sample_nan_df) ∧
  check_duplicates sample_filled_df =
    (Ok (mkDupTable ["a"; "b"; "dup_count"] [([pint 1; PStr "z"], 2%nat)]),
     sample_filled_df).
Proof using sort_groups_perm.
  split; [reflexivity|]. split; [reflexivity|]. split; [reflexivity|].
  pose proof sort_groups_nil as Hnil.
  pose proof (sort_groups_singleton ([pint 1; PStr "z"], 2%nat)) as Hone.
  split.
  - vm_compute. vm_compute in Hnil. by rewrite Hnil.
  - vm_compute. vm_compute in Hone. by rewrite Hone.
Qed.

(** ** Further properties of the checkers *)

(** *** Duplicates *)



(** X2. A dataset with a column called [dup_count] makes the duplicate
    check fail: [reset_index(name='dup_count')] cannot add a column of
    that name.  The dataset is left as it was. *)
Theorem check_duplicates_dup_count_column (df : DataFrame) :
  NoDup (columns df) → "dup_count" ∈ columns df →
  check_duplicates df =
    (Err (ValueError "cannot insert dup_count, already exists"), df).
Proof.
  intros Hnd Hname.
  unfold check_duplicates, bind, get_df, lift, ret, groupby_size.
  destruct (columns df) as [|c0 cs] eqn:Ecols; [inversion Hname|].
  rewrite <- Ecols.
  assert (columns (bool_index df (duplicated (rows df))) = columns df) as Hcols
    by (unfold columns, bool_index; simpl; apply map_names).
  assert (getitem_list (bool_index df (duplicated (rows df))) (columns df)
          = Ok (bool_index df (duplicated (rows df)))) as Hsel.
  { rewrite <- Hcols. apply getitem_list_all. by rewrite Hcols, Ecols. }
  rewrite Hsel. cbn [result_bind]. unfold reset_index. cbn [fst snd].
  rewrite decide_True by (by rewrite Ecols). reflexivity.
Qed.

(** *** The most frequent type *)

Lemma foldr_max_ge (l : list nat) (x : nat) : x ∈ l → (x ≤ foldr max 0%nat l)%nat.
Proof.
  induction l as [|a l IH]; [by intros H; inversion H|].
  intros H. apply elem_of_cons in H as [->|H]; simpl; [lia|].
  specialize (IH H). lia.
Qed.

Lemma mode_most_frequent {A} `{EqDecision A} (l : list A) (x : A) :
  x ∈ mode l → ∀ y, (count_eq y l ≤ count_eq x l)%nat.
Proof.
  unfold mode. intros Hx y. apply list_elem_of_filter in Hx as [-> _].
  destruct (decide (y ∈ l)) as [Hy|Hy].
  - apply foldr_max_ge. by apply (list_elem_of_fmap_2 (λ x, count_eq x l)).
  - pose proof (count_eq_pos y l) as Hpos.
    destruct (count_eq y l); [lia|]. exfalso. apply Hy, Hpos. lia.
Qed.

Lemma actual_type_name_most_frequent (vs : list scalar) (name : string) :
  actual_type_name vs = Ok name →
  ∃ T, name = type_name T ∧
       (∃ v, v ∈ vs ∧ v ≠ NaN ∧ type_of v = T) ∧
       ∀ T', (count_eq T' (map type_of (dropna vs))
              ≤ count_eq T (map type_of (dropna vs)))%nat.
Proof.
  unfold actual_type_name.
  destruct (mode (map type_of (dropna vs))) as [|T ts] eqn:E; [done|].
  intros [= <-]. exists T. split; [done|].
  assert (T ∈ mode (map type_of (dropna vs))) as HT by (rewrite E; left).
  split.
  - apply mode_elem in HT.
    apply (list_elem_of_fmap type_of) in HT as [v [-> Hv]].
    apply dropna_spec in Hv as [Hnan Hv]. by exists v.
  - by apply mode_most_frequent.
Qed.

(** X3. Let the rule names be pairwise distinct.  Whenever the type
    check returns, every targeted existing column has a type [T] that is
    the type of one of its non-missing values and is at least as
    frequent among them as any other type; the column has an entry
    exactly when the name of [T] differs from the expected name, and
    the entry names both. *)
Theorem check_data_types_most_frequent (df : DataFrame)
    (expected : list (string * string)) (m : gmap string string) :
  NoDup expected.*1 →
  (check_data_types expected df).1 = Ok m →
  ∀ col t vs, (col, t) ∈ expected → get_col col (data df) = Some vs →
    ∃ T, (∃ v, v ∈ vs ∧ v ≠ NaN ∧ type_of v = T) ∧
         (∀ T', (count_eq T' (map type_of (dropna vs))
                 ≤ count_eq T (map type_of (dropna vs)))%nat) ∧
         m !! col =
           (if decide (type_name T ≠ t)
            then Some ("Expected " +:+ t +:+ ", Found " +:+ type_name T)
            else None).
Proof.
  intros Hnd Hrun col t vs Hcol Hvs. unfold check_data_types in Hrun.
  destruct (types_loop_lookup _ _ _ _ Hnd Hrun) as [_ Hin].
  pose proof (Hin col t Hcol) as Hm. rewrite Hvs in Hm.
  unfold type_outcome in Hm.
  destruct (actual_type_name vs) as [name|e] eqn:Ea.
  - destruct (actual_type_name_most_frequent vs name Ea) as (T & -> & Hv & Hmax).
    exists T. split; [done|]. split; [done|].
    cbn [result_bind] in Hm. rewrite Hm.
    destruct (decide (type_name T ≠ t)); [done|apply lookup_empty].
  - apply actual_type_name_err in Ea as [_ Hd].
    rewrite (types_loop_error _ _ _ _ _ _ Hcol Hvs Hd) in Hrun. done.
Qed.


(** *** Entries of the range check *)

Lemma ranges_loop_origin items : ∀ acc df m df',
  for_items range_rule acc items df = (Ok m, df') →
  ∀ c e, m !! c = Some e →
    acc !! c = Some e ∨
    (c ∈ columns df ∧
     ∃ b vs, (c, b) ∈ items ∧ range_entry_of (index df) c vs b = Some e).
Proof.
  induction items as [|[k v] items IH]; intros acc df m df' Hrun c e Hm.
  - simpl in Hrun. unfold ret in Hrun. simplify_eq. by left.
  - simpl in Hrun. unfold bind in Hrun. rewrite range_rule_spec in Hrun.
    destruct (get_col k (data df)) as [vs|] eqn:E.
    + assert (k ∈ columns df) as Hk by (apply get_col_is_Some; eauto).
      destruct (IH _ _ _ _ Hrun c e Hm) as [Hacc|(Hc & b & ws & Hin & He)].
      * destruct (range_entry_of (index df) k vs v) as [e0|] eqn:E0; [|by left].
        destruct (decide (c = k)) as [->|Hne].
        -- rewrite lookup_insert_eq in Hacc. injection Hacc as ->.
           right. split; [done|]. exists v, vs. split; [left|done].
        -- rewrite lookup_insert_ne in Hacc by done. by left.
      * right. rewrite setitem_columns in Hc by done. split; [done|].
        exists b, ws. split; [by right|done].
    + destruct (IH _ _ _ _ Hrun c e Hm) as [Hacc|(Hc & b & ws & Hin & He)];
        [by left|].
      right. split; [done|]. exists b, ws. split; [by right|done].
Qed.

(** X4. The mapping returned by the range check has entries only for
    names that are both a rule and a column of the dataset. *)
Theorem check_ranges_entries_targeted (df df' : DataFrame)
    (rules : list (string * (scalar * scalar))) (m : gmap string range_entry) :
  check_ranges rules df = (Ok m, df') →
  ∀ c e, m !! c = Some e → c ∈ rules.*1 ∧ c ∈ columns df.
Proof.
  intros Hrun c e Hm.
  destruct (ranges_loop_origin _ _ _ _ _ Hrun c e Hm)
    as [Hacc|(Hc & b & vs & Hin & _)]; [by rewrite lookup_empty in Hacc|].
  split; [|done]. apply list_elem_of_fmap. by exists (c, b).
Qed.

Lemma mask_filter_sublist {A} (mask : list bool) (l : list A) :
  mask_filter mask l `sublist_of` l.
Proof.
  revert l. induction mask as [|b mask IH]; intros [|x l]; simpl;
    try apply sublist_nil_l.
  destruct b; [by apply sublist_skip|by apply sublist_cons].
Qed.

(** X5. With numeric bounds in every rule, no entry of the range check
    is an error text: every entry is a frame with the rule's column as
    its only column and at least one row, and its row labels are row
    labels of the dataset, in their order. *)
Theorem check_ranges_numeric_bounds (df df' : DataFrame)
    (rules : list (string * (scalar * scalar))) (m : gmap string range_entry) :
  (∀ c lo hi, (c, (lo, hi)) ∈ rules → ∃ a b, lo = PNum a ∧ hi = PNum b) →
  check_ranges rules df = (Ok m, df') →
  ∀ c e, m !! c = Some e →
    ∃ f, e = Violations f ∧ index f ≠ [] ∧ columns f = [c] ∧
         index f `sublist_of` index df.
Proof.
  intros Hnum Hrun c e Hm.
  destruct (ranges_loop_origin _ _ _ _ _ Hrun c e Hm)
    as [Hacc|(_ & [lo hi] & vs & Hin & He)]; [by rewrite lookup_empty in Hacc|].
  destruct (Hnum _ _ _ Hin) as (a & b & -> & ->).
  unfold range_entry_of in He. cbn [fst snd] in He.
  rewrite range_outcome_num in He. cbv zeta in He.
  set (mask := map (λ x, bool_decide (out_of_range a b x)) (to_numeric vs)) in *.
  pose proof (mask_filter_sublist mask (index df)) as Hsub.
  destruct (mask_filter mask (index df)) as [|k ks] eqn:Ek; [done|].
  injection He as <-. eexists. split; [done|]. cbn [index]. done.
Qed.

Lemma filter_iff_in {A} (P1 P2 : A → Prop)
    `{!∀ x, Decision (P1 x), !∀ x, Decision (P2 x)} (l : list A) :
  (∀ x, x ∈ l → P1 x ↔ P2 x) → filter P1 l = filter P2 l.
Proof.
  induction l as [|x l IH]; intros Hiff; [done|].
  assert (filter P1 l = filter P2 l) as Hl
    by (apply IH; intros y Hy; apply Hiff; by right).
  destruct (decide (P1 x)) as [Hx|Hx].
  - rewrite !filter_cons_True; [by rewrite Hl|by apply (Hiff x); [left|]|done].
  - rewrite !filter_cons_False; [by rewrite Hl| |done].
    intros H2. apply Hx. apply (Hiff x); [left|done].
Qed.

(** X6. A rule whose minimum is above its maximum reports every row
    whose coerced value is a number, and only those: missing values
    are still left out. *)
Theorem check_ranges_inverted_bounds (df : DataFrame)
    (rules : list (string * (scalar * scalar)))
    (col : string) (a b : number) (vs : list scalar) :
  frame_wf df → NoDup rules.*1 →
  (col, (PNum a, PNum b)) ∈ rules → get_col col (data df) = Some vs →
  (number_value b < number_value a)%Qc →
  let coerced := to_numeric vs in
  let present := filter (λ iv, iv.2 ≠ NaN) (zip (index df) coerced) in
  ∃ m df', check_ranges rules df = (Ok m, df') ∧
    m !! col = (if decide (present = []) then None
                else Some (Violations (mkFrame present.*1 [(col, present.*2)]))).
Proof.
  intros Hwf Hnd Hrule Hvs Hinv coerced present.
  destruct (ranges_loop_total rules ∅ df) as (m & df' & Hrun & _ & _ & _).
  exists m, df'. unfold check_ranges. split; [done|].
  destruct (ranges_loop_lookup _ _ _ _ _ Hnd Hrun) as [_ Hin].
  destruct (Hin _ _ Hrule) as [_ Hm]. rewrite Hvs in Hm.
  assert (length (index df) = length coerced) as Hlen.
  { subst coerced. rewrite to_numeric_length.
    symmetry. by eapply frame_wf_length. }
  destruct (mask_filter_zip (out_of_range a b) (index df) coerced Hlen)
    as [Hidx Hval].
  assert (filter (λ iv, out_of_range a b iv.2) (zip (index df) coerced) = present)
    as Hsame.
  { subst present. apply filter_iff_in. intros [k v] Hkv. cbn [snd].
    assert (∀ s, v ≠ PStr s) as Hns.
    { apply elem_of_zip_r in Hkv. pose proof (to_numeric_not_str vs) as Hall.
      rewrite Forall_forall in Hall. by apply Hall. }
    split.
    - intros (n & -> & _). done.
    - intros Hnan. destruct v as [n|s|]; [|by specialize (Hns s)|done].
      exists n. split; [done|].
      destruct (Qclt_le_dec (number_value n) (number_value a)) as [Hlt|Hle];
        [by left|right].
      by eapply Qclt_le_trans. }
  rewrite Hm. unfold range_entry_of. cbn [fst snd].
  rewrite range_outcome_num. cbv zeta. fold coerced.
  rewrite Hidx, Hval, Hsame.
  destruct (decide (present = [])) as [->|Hne]; [by rewrite lookup_empty|].
  by destruct present.
Qed.

(** *** Running the range check again, in general *)

Lemma range_entry_of_coerced (idx : list nat) (c : string) (vs : list scalar)
    (bounds : scalar * scalar) :
  range_entry_of idx c (to_numeric vs) bounds = range_entry_of idx c vs bounds.
Proof. unfold range_entry_of, range_outcome. by rewrite to_numeric_idem. Qed.

(** X7. With pairwise distinct rule names the range check is
    idempotent: run again on the dataset it left, it returns the same
    mapping and leaves that dataset as it is. *)
Theorem check_ranges_idempotent (df : DataFrame)
    (rules : list (string * (scalar * scalar))) :
  NoDup rules.*1 →
  ∃ m df1, check_ranges rules df = (Ok m, df1) ∧
           check_ranges rules df1 = (Ok m, df1).
Proof.
  intros Hnd. unfold check_ranges.
  destruct (ranges_loop_total rules ∅ df) as (m & df1 & Hrun1 & Hidx & _ & _).
  destruct (ranges_loop_total rules ∅ df1) as (m2 & df2 & Hrun2 & _ & _ & _).
  destruct (ranges_loop_lookup _ _ _ _ _ Hnd Hrun1) as [Hout1 Hin1].
  destruct (ranges_loop_lookup _ _ _ _ _ Hnd Hrun2) as [Hout2 Hin2].
  exists m, df1. split; [done|]. rewrite Hrun2.
  assert (m2 = m) as ->.
  { apply map_eq. intros c. destruct (decide (c ∈ rules.*1)) as [Hc|Hc].
    - apply list_elem_of_fmap in Hc as [[c' b] [-> Hc]]. cbn [fst].
      destruct (Hin1 _ _ Hc) as [Hcol ->]. destruct (Hin2 _ _ Hc) as [_ ->].
      rewrite Hcol, Hidx.
      destruct (get_col c' (data df)) as [vs|]; [|done]. cbn [fmap option_fmap option_map].
      by rewrite range_entry_of_coerced.
    - destruct (Hout1 c Hc) as [-> _]. by destruct (Hout2 c Hc) as [-> _]. }
  f_equal.
  assert ((for_items range_rule ∅ rules df1).2 = df1) as Hfix.
  { apply ranges_loop_fixed. intros c b xs Hc Hxs.
    destruct (Hin1 _ _ Hc) as [Hcol _]. rewrite Hcol in Hxs.
    destruct (get_col c (data df)) as [vs|]; [|done].
    injection Hxs as <-. apply to_numeric_idem. }
  by rewrite Hrun2 in Hfix.
Qed.

(** *** Well-formedness *)

Lemma set_col_Forall {A} (P : string * list A → Prop) (c : string)
    (xs : list A) (d : list (string * list A)) :
  Forall P d → P (c, xs) → Forall P (set_col c xs d).
Proof.
  intros Hall Hc. induction Hall as [|[k ws] d Hk Hall IH]; simpl.
  - by constructor.
  - destruct (decide (k = c)) as [->|Hne]; by constructor.
Qed.

Lemma setitem_wf (df : DataFrame) (c : string) (vs xs : list scalar) :
  frame_wf df → get_col c (data df) = Some vs → length xs = length vs →
  frame_wf (setitem df c xs).
Proof.
  intros Hwf Hvs Hlen. pose proof (frame_wf_length df c vs Hwf Hvs) as Hvl.
  destruct Hwf as [Hnd Hall]. split.
  - rewrite setitem_columns; [done|]. apply get_col_is_Some. eauto.
  - unfold setitem. cbn [index data]. apply set_col_Forall; [done|].
    cbn [snd]. congruence.
Qed.

Lemma ranges_loop_wf items : ∀ acc df,
  frame_wf df → frame_wf (for_items range_rule acc items df).2.
Proof.
  induction items as [|[k v] items IH]; intros acc df Hwf; [done|].
  simpl. unfold bind. rewrite range_rule_spec.
  destruct (get_col k (data df)) as [vs|] eqn:E; [|by apply IH].
  apply IH. eapply setitem_wf; [done|done|]. apply to_numeric_length.
Qed.

(** X8. The range check keeps a well-formed dataset well formed: the
    same row labels, the same column names, pairwise distinct, and
    every column as long as the row labels. *)
Theorem check_ranges_keeps_well_formed (df : DataFrame)
    (rules : list (string * (scalar * scalar))) :
  frame_wf df →
  frame_wf (check_ranges rules df).2 ∧
  index (check_ranges rules df).2 = index df ∧
  columns (check_ranges rules df).2 = columns df.
Proof.
  intros Hwf. split; [by apply ranges_loop_wf|].
  destruct (ranges_loop_total rules ∅ df) as (m & df' & Hrun & Hidx & Hcols & _).
  unfold check_ranges. by rewrite Hrun.
Qed.


(** *** Missing values and types after a range check *)

Lemma count_nan_as_float (l : list scalar) :
  length (filter (λ v, v = NaN) (map as_float l))
    = length (filter (λ v, v = NaN) l).
Proof.
  induction l as [|v l IH]; [done|]. cbn [map].
  destruct v as [n|s|]; cbn [as_float].
  - by rewrite !filter_cons_False by done.
  - by rewrite !filter_cons_False by done.
  - rewrite !filter_cons_True by done. simpl. by rewrite IH.
Qed.

Lemma count_nan_coerce (vs : list scalar) :
  length (filter (λ v, v = NaN) (map coerce vs))
    = (length (filter (λ v, v = NaN) vs)
       + length (filter (λ v, unparseable v) vs))%nat.
Proof.
  induction vs as [|v vs IH]; [done|]. cbn [map].
  destruct v as [n|s|]; cbn [coerce].
  - rewrite !filter_cons_False by (done || by intros []). exact IH.
  - destruct (parse_numeric s) as [n|] eqn:Es.
    + rewrite !filter_cons_False; [exact IH| |done|done].
      unfold unparseable. rewrite Es. by intros [].
    + rewrite filter_cons_True by done.
      rewrite (filter_cons_False (λ v, v = NaN)) by done.
      rewrite (filter_cons_True (λ v, unparseable v)).
      * simpl. rewrite IH. lia.
      * unfold unparseable. by rewrite Es.
  - rewrite filter_cons_True by done.
    rewrite (filter_cons_True (λ v, v = NaN)) by done.
    rewrite (filter_cons_False (λ v, unparseable v)) by (by intros []).
    simpl. by rewrite IH.
Qed.

Lemma count_nan_to_numeric (vs : list scalar) :
  length (filter (λ v, v = NaN) (to_numeric vs))
    = (length (filter (λ v, v = NaN) vs)
       + length (filter (λ v, unparseable v) vs))%nat.
Proof.
  unfold to_numeric. destruct (forallb is_int (map coerce vs)).
  - apply count_nan_coerce.
  - rewrite count_nan_as_float. apply count_nan_coerce.
Qed.

(** X9. A range check can only add missing values: a null check run
    after it on a range-checked column counts the missing values the
    column had before plus the texts that could not be parsed as
    numbers. *)
Theorem range_check_adds_missing (df : DataFrame)
    (rules : list (string * (scalar * scalar)))
    (col : string) (bounds : scalar * scalar) (vs : list scalar) :
  NoDup rules.*1 → (col, bounds) ∈ rules → get_col col (data df) = Some vs →
  let before := length (filter (λ v, v = NaN) vs) in
  (check_nulls [col] df).1 = Ok [(col, before)] ∧
  (bind (check_ranges rules) (λ _, check_nulls [col]) df).1 =
    Ok [(col, (before + length (filter (λ v, unparseable v) vs))%nat)].
Proof.
  intros Hnd Hrule Hvs before. split.
  - by rewrite (check_nulls_single df col vs Hvs).
  - destruct (ranges_loop_total rules ∅ df) as (m & df1 & Hrun & _ & _ & _).
    destruct (ranges_loop_lookup _ _ _ _ _ Hnd Hrun) as [_ Hin].
    destruct (Hin _ _ Hrule) as [Hcol _]. rewrite Hvs in Hcol.
    unfold bind, check_ranges. rewrite Hrun.
    rewrite (check_nulls_single df1 col (to_numeric vs) Hcol). cbn [fst].
    by rewrite count_nan_to_numeric.
Qed.




(** *** The report *)

Lemma appends_write (x : shown) : appends (st_write x).
Proof. intros out df. reflexivity. Qed.

Lemma appends_call {A} (m : M A) : appends (call m).
Proof. intros out df. unfold call. destruct (m df). by rewrite app_nil_r. Qed.

Lemma appends_ret {A} (a : A) : appends (app_ret a).
Proof. intros out df. unfold app_ret. by rewrite app_nil_r. Qed.

Lemma appends_bind {A B} (m : App A) (k : A → App B) :
  appends m → (∀ a, appends (k a)) → appends (app_bind m k).
Proof.
  intros Hm Hk out df. unfold app_bind. rewrite (Hm out df).
  destruct (m [] df) as [[[a|e] o] df']; [|done].
  rewrite (Hk a (out ++ o)%list), (Hk a o).
  destruct (k a [] df') as [[r o'] df'']. by rewrite (assoc_L (++)).
Qed.

Lemma appends_for {A} (body : A → App unit) (l : list A) :
  (∀ x, appends (body x)) → appends (app_for body l).
Proof.
  intros Hbody. induction l as [|x l IH]; simpl.
  - apply appends_ret.
  - apply appends_bind; [apply Hbody|]. intros _. exact IH.
Qed.

Lemma appends_null_section cols : appends (null_section cols).
Proof.
  unfold null_section. apply appends_bind; [apply appends_write|]. intros _.
  destruct cols as [|c cols]; [apply appends_write|].
  apply appends_bind; [apply appends_call|]. intros nulls. apply appends_write.
Qed.

Lemma appends_duplicate_section : appends duplicate_section.
Proof.
  unfold duplicate_section. apply appends_bind; [apply appends_write|]. intros _.
  apply appends_bind; [apply appends_call|]. intros tbl.
  destruct (dup_rows tbl); apply appends_write.
Qed.

Lemma appends_type_section expected : appends (type_section expected).
Proof.
  unfold type_section. apply appends_bind; [apply appends_write|]. intros _.
  destruct expected as [|rule expected]; [apply appends_write|].
  apply appends_bind; [apply appends_call|]. intros m.
  destruct (decide (size m = 0%nat)); apply appends_write.
Qed.

Lemma appends_range_section rules : appends (range_section rules).
Proof.
  unfold range_section. apply appends_bind; [apply appends_write|]. intros _.
  destruct rules as [|rule rules]; [apply appends_write|].
  apply appends_bind; [apply appends_call|]. intros m.
  destruct (decide (size m = 0%nat)); [apply appends_write|].
  apply appends_for. intros [c e]. apply appends_write.
Qed.

(** A step run after a step that succeeded shows its own output after
    that of the first. *)
Lemma app_bind_then {A B} (m : App A) (k : A → App B) df a o1 df1 r o2 df2 :
  (∀ a, appends (k a)) →
  m [] df = (Ok a, o1, df1) → k a [] df1 = (r, o2, df2) →
  app_bind m k [] df = (r, (o1 ++ o2)%list, df2).
Proof.
  intros Hk Hm Hka. unfold app_bind. rewrite Hm, (Hk a o1 df1), Hka. done.
Qed.

Lemma check_nulls_present (df : DataFrame) (cols : list string) :
  Forall (λ c, c ∈ columns df) cols →
  ∃ s, check_nulls cols df = (Ok s, df).
Proof.
  intros Hall. unfold check_nulls, bind, get_df, lift, ret.
  rewrite (getitem_list_present df cols Hall). by eexists.
Qed.

Lemma null_section_ok (df : DataFrame) (cols : list string) :
  Forall (λ c, c ∈ columns df) cols →
  ∃ x, null_section cols [] df = (Ok tt, [Subheader "Null Value Check"; x], df) ∧
       is_subheader x = false.
Proof.
  intros Hall. unfold null_section, app_bind, st_subheader, st_write, call.
  destruct cols as [|c cols]; [by eexists|].
  destruct (check_nulls_present df (c :: cols) Hall) as [s Hs].
  cbn [app]. rewrite Hs. by eexists.
Qed.

Lemma duplicate_section_ok (df : DataFrame) :
  NoDup (columns df) → columns df ≠ [] → "dup_count" ∉ columns df →
  ∃ x, duplicate_section [] df = (Ok tt, [Subheader "Duplicate Records"; x], df) ∧
       is_subheader x = false.
Proof using sort_groups_perm.
  intros Hnd Hne Hname.
  destruct (check_duplicates_spec df Hnd Hne Hname) as (tbl & Hrun & _).
  unfold duplicate_section, app_bind, st_subheader, st_write, call.
  cbn [app]. rewrite Hrun. by destruct (dup_rows tbl); eexists.
Qed.

Lemma check_data_types_pair (df : DataFrame) (expected : list (string * string)) :
  check_data_types expected df = ((check_data_types expected df).1, df).
Proof.
  pose proof (types_loop_state expected ∅ df) as Hst. unfold check_data_types.
  destruct (for_items type_rule ∅ expected df) as [r df']. simpl in Hst.
  by subst.
Qed.

Lemma type_section_ok (df : DataFrame) (expected : list (string * string)) :
  (∀ c t vs, (c, t) ∈ expected → get_col c (data df) = Some vs →
             dropna vs ≠ []) →
  ∃ x, type_section expected [] df
         = (Ok tt, [Subheader "Data Type Validation"; x], df) ∧
       is_subheader x = false.
Proof.
  intros Hfull. unfold type_section, app_bind, st_subheader, st_write, call.
  destruct expected as [|rule expected]; [by eexists|].
  destruct (types_loop_total (rule :: expected) ∅ df Hfull) as [m Hm].
  cbn [app]. rewrite check_data_types_pair. unfold check_data_types. rewrite Hm.
  by destruct (decide (size m = 0%nat)); eexists.
Qed.

Lemma type_section_error (df : DataFrame) (expected : list (string * string))
    (col t : string) (vs : list scalar) :
  (col, t) ∈ expected → get_col col (data df) = Some vs →
  Forall (λ v, v = NaN) vs →
  type_section expected [] df
    = (Err (KeyError "0"), [Subheader "Data Type Validation"], df).
Proof.
  intros Hcol Hvs Hall. unfold type_section, app_bind, st_subheader, st_write, call.
  destruct expected as [|rule expected]; [inversion Hcol|].
  cbn [app]. rewrite check_data_types_pair. unfold check_data_types.
  by rewrite (types_loop_error _ ∅ df col t vs Hcol Hvs
                (dropna_all_missing vs Hall)).
Qed.

Lemma app_for_writes {A} (body : A → App unit) (f : A → shown)
    (l : list A) out df :
  (∀ x out df, body x out df = (Ok tt, (out ++ [f x])%list, df)) →
  app_for body l out df = (Ok tt, (out ++ map f l)%list, df).
Proof.
  intros Hbody. revert out. induction l as [|x l IH]; intros out; simpl.
  - unfold app_ret. by rewrite app_nil_r.
  - unfold app_bind. rewrite Hbody, IH. by rewrite <- (assoc_L (++)).
Qed.

Lemma range_section_ok (df : DataFrame)
    (rules : list (string * (scalar * scalar))) :
  ∃ o, range_section rules [] df
         = (Ok tt, Subheader "Range Validation" :: o, (check_ranges rules df).2) ∧
       Forall (λ x, is_subheader x = false) o.
Proof.
  unfold range_section, app_bind, st_subheader, st_write, call.
  destruct rules as [|rule rules]; [eexists; split; [done|by repeat constructor]|].
  destruct (ranges_loop_total (rule :: rules) ∅ df) as (m & df1 & Hrun & _).
  cbn [app]. unfold check_ranges. rewrite Hrun. cbn [snd].
  destruct (decide (size m = 0%nat)).
  - eexists. split; [done|]. by repeat constructor.
  - rewrite (app_for_writes _
               (λ '(col, result),
                  RangeResult ("Violations in " +:+ col +:+ ":") result))
      by (by intros [c e] ? ?).
    eexists. split; [done|]. apply Forall_fmap, Forall_forall. by intros [c e] _.
Qed.

(** X11. When the selected null-check columns are columns of the
    dataset, the dataset has pairwise distinct column names, at least
    one column and none called [dup_count], and no column selected for
    the type check is entirely missing, pressing the button runs to the
    end: it shows, in this order, what the null, duplicate, type and
    range sections each show on the dataset as loaded, and it leaves
    the dataset as the range check alone leaves it. *)
Theorem run_checks_report (df : DataFrame) (null_check_cols : list string)
    (expected_types : list (string * string))
    (range_rules : list (string * (scalar * scalar))) :
  Forall (λ c, c ∈ columns df) null_check_cols →
  NoDup (columns df) → columns df ≠ [] → "dup_count" ∉ columns df →
  (∀ c t vs, (c, t) ∈ expected_types → get_col c (data df) = Some vs →
             dropna vs ≠ []) →
  ∃ o1 o2 o3 o4,
    null_section null_check_cols [] df = (Ok tt, o1, df) ∧
    duplicate_section [] df = (Ok tt, o2, df) ∧
    type_section expected_types [] df = (Ok tt, o3, df) ∧
    range_section range_rules [] df
      = (Ok tt, o4, (check_ranges range_rules df).2) ∧
    run_checks null_check_cols expected_types range_rules [] df
      = (Ok tt, (o1 ++ o2 ++ o3 ++ o4)%list, (check_ranges range_rules df).2).
Proof using sort_groups_perm.
  intros Hnull Hnd Hne Hname Hfull.
  destruct (null_section_ok df null_check_cols Hnull) as (x1 & H1 & _).
  destruct (duplicate_section_ok df Hnd Hne Hname) as (x2 & H2 & _).
  destruct (type_section_ok df expected_types Hfull) as (x3 & H3 & _).
  destruct (range_section_ok df range_rules) as (o4 & H4 & _).
  eexists _, _, _, _. split; [exact H1|]. split; [exact H2|].
  split; [exact H3|]. split; [exact H4|].
  unfold run_checks.
  eapply app_bind_then; [|exact H1|].
  { intros _. apply appends_bind; [apply appends_duplicate_section|]. intros _.
    apply appends_bind; [apply appends_type_section|]. intros _.
    apply appends_range_section. }
  eapply app_bind_then; [|exact H2|].
  { intros _. apply appends_bind; [apply appends_type_section|]. intros _.
    apply appends_range_section. }
  eapply app_bind_then; [|exact H3|exact H4].
  intros _. apply appends_range_section.
Qed.

(** X12. When a column selected for the type check is entirely
    missing (and the null and duplicate sections succeed as in X11),
    pressing the button stops in the type section with the failure of
    the type check: the last thing shown is the type section's
    subheader, the range section is not shown, and the dataset is left
    as it was, whatever the range rules. *)
Theorem run_checks_stops_at_type_error (df : DataFrame)
    (null_check_cols : list string) (expected_types : list (string * string))
    (range_rules : list (string * (scalar * scalar)))
    (col t : string) (vs : list scalar) :
  Forall (λ c, c ∈ columns df) null_check_cols →
  NoDup (columns df) → columns df ≠ [] → "dup_count" ∉ columns df →
  (col, t) ∈ expected_types → get_col col (data df) = Some vs →
  Forall (λ v, v = NaN) vs →
  ∃ out,
    run_checks null_check_cols expected_types range_rules [] df
      = (Err (KeyError "0"), out, df) ∧
    last out = Some (Subheader "Data Type Validation") ∧
    Subheader "Range Validation" ∉ out.
Proof using sort_groups_perm.
  intros Hnull Hnd Hne Hname Hcol Hvs Hall.
  destruct (null_section_ok df null_check_cols Hnull) as (x1 & H1 & Hx1).
  destruct (duplicate_section_ok df Hnd Hne Hname) as (x2 & H2 & Hx2).
  pose proof (type_section_error df expected_types col t vs Hcol Hvs Hall) as H3.
  eexists. split.
  - unfold run_checks.
    eapply app_bind_then; [|exact H1|].
    { intros _. apply appends_bind; [apply appends_duplicate_section|]. intros _.
      apply appends_bind; [apply appends_type_section|]. intros _.
      apply appends_range_section. }
    eapply app_bind_then; [|exact H2|].
    { intros _. apply appends_bind; [apply appends_type_section|]. intros _.
      apply appends_range_section. }
    unfold app_bind. rewrite H3. reflexivity.
  - split; [reflexivity|]. cbn [app]. intros Hin.
    repeat (apply elem_of_cons in Hin as [Hin|Hin]);
      try discriminate; try (by subst); inversion Hin.
Qed.

End Checkers.

(** ** The theorems at sample datasets *)

Lemma check_nulls_counts_witness :
  ∃ s, (check_nulls ["a"; "b"] sample_nan_df).1 = Ok s ∧
       ("a", 0%nat) ∈ s ∧ ("b", 2%nat) ∈ s.
Proof.
  destruct (check_nulls_counts sample_nan_df ["a"; "b"]) as (s & Hs & _ & Hspec).
  - compute_done.
  - exists s. split; [exact Hs|]. split.
    + apply (Hspec "a" [pint 1; pint 1; pint 2]); [compute_done|reflexivity|compute_done].
    + apply (Hspec "b" [NaN; NaN; PStr "y"]); [compute_done|reflexivity..].
Defined.

Lemma check_duplicates_drops_missing_tuples_witness :
  ∃ tbl, check_duplicates (λ l, l) sample_nan_df = (Ok tbl, sample_nan_df) ∧
         ∀ n, ([pint 1; NaN], n) ∉ dup_rows tbl.
Proof.
  exact (proj2 (check_duplicates_drops_missing_tuples
                  (λ l, l) (λ l, Permutation_refl l))).
Defined.



Lemma check_ranges_never_raises_witness :
  ∃ m df',
    check_ranges parse_decimal
      [("b", (pint 0, pint 10)); ("c", (PStr "u", pint 1))] sample_text_df = (Ok m, df') ∧
    m !! "c" =
      Some (ErrorText "Error: Invalid comparison between dtype=float64 and str") ∧
    m !! "b" = None.
Proof.
  destruct (check_ranges_never_raises parse_decimal sample_text_df
              [("b", (pint 0, pint 10)); ("c", (PStr "u", pint 1))])
    as (m & df' & Hrun & Hspec).
  exists m, df'. split; [exact Hrun|].
  assert (NoDup [("b", (pint 0, pint 10)); ("c", (PStr "u", pint 1))].*1) as Hnd
    by compute_done.
  split.
  - destruct (Hspec Hnd "c" (PStr "u") (pint 1)) as [Herr _];
      [compute_done|compute_done|].
    exact (Herr (TypeError "Invalid comparison between dtype=float64 and str")
                eq_refl).
  - destruct (Hspec Hnd "b" (pint 0) (pint 10)) as [_ Hok];
      [compute_done|compute_done|].
    exact (Hok ∅ eq_refl).
Defined.

Lemma missing_column_asymmetry_witness :
  (∃ e, check_nulls ["a"; "zzz"] sample_df = (Err e, sample_df) ∧
        is_LookupError e = true) ∧
  check_data_types [("zzz", "int")] sample_df = (Ok ∅, sample_df) ∧
  check_ranges parse_decimal [("zzz", (pint 0, pint 1))] sample_df = (Ok ∅, sample_df).
Proof.
  destruct (missing_column_asymmetry parse_decimal sample_df)
    as (Hnulls & Htypes & _ & Hranges & _).
  split; [apply (Hnulls ["a"; "zzz"] "zzz"); compute_done|].
  split; [rewrite Htypes; reflexivity|rewrite Hranges; reflexivity].
Defined.


Lemma check_data_types_all_missing_witness :
  check_data_types [("b", "str"); ("c", "float")] sample_text_df
    = (Err (KeyError "0"), sample_text_df).
Proof.
  apply (check_data_types_all_missing sample_text_df _ "c" "float" [NaN; NaN; NaN]);
    [compute_done|reflexivity|compute_done].
Defined.

Lemma check_duplicates_missing_rows_lost_witness :
  check_duplicates (λ l, l) sample_nan_df
    = (Ok (mkDupTable ["a"; "b"; "dup_count"] []), sample_nan_df).
Proof.
  exact (proj1 (proj2 (proj2 (proj2
           (check_duplicates_missing_rows_lost
              (λ l, l) (λ l, Permutation_refl l)))))).
Defined.

Lemma check_ranges_twice_in_bounds_witness :
  ∃ df1,
    check_ranges parse_decimal [("a", (pint 0, pint 10))] sample_df = (Ok ∅, df1) ∧
    check_ranges parse_decimal [("a", (pint 0, pint 10))] df1 = (Ok ∅, df1).
Proof.
  apply check_ranges_twice_in_bounds; [compute_done|].
  intros col lo hi vs Hin Hvs.
  apply list_elem_of_singleton in Hin. injection Hin as -> -> ->.
  vm_compute in Hvs. injection Hvs as <-.
  exists (NInt 0), (NInt 10). split; [reflexivity|]. split; [reflexivity|].
  repeat constructor; (eexists; split; [reflexivity|]; split; compute_done).
Defined.

(** ** The scenarios of the specification *)

Example scenario_nulls :
  check_nulls ["a"] sample_df = (Ok [("a", 0%nat)], sample_df).
Proof. reflexivity. Qed.

Example scenario_duplicates :
  check_duplicates (λ l, l) sample_df =
    (Ok (mkDupTable ["a"; "b"; "dup_count"] [([pint 1; PStr "x"], 2%nat)]),
     sample_df).
Proof. reflexivity. Qed.

Example scenario_ranges :
  check_ranges parse_decimal [("a", (pint 0, pint 3))] sample_df =
    (Ok {["a" := Violations (mkFrame [1%nat] [("a", [pint 5])])]}, sample_df).
Proof. reflexivity. Qed.

(** ["oops"] becomes missing and is not reported; the column is left
    coerced to floats. *)
Example scenario_coercion :
  check_ranges parse_decimal [("b", (pint 0, pint 10))] sample_text_df =
    (Ok ∅,
     mkFrame [0; 1; 2]%nat
       [("b", [PNum (NFloat (Qc_of_Z 1)); PNum (NFloat (Qc_of_Z 2)); NaN]);
        ("c", [NaN; NaN; NaN])]).
Proof. reflexivity. Qed.

(** A type check that runs after the range check sees the coerced
    column. *)
Example scenario_types_after_ranges :
  (bind (check_ranges parse_decimal [("b", (pint 0, pint 10))])
        (λ _, check_data_types [("b", "str")]) sample_text_df).1 =
    Ok {["b" := "Expected str, Found float"]} ∧
  (check_data_types [("b", "str")] sample_text_df).1 = Ok ∅.
Proof. split; reflexivity. Qed.

(** ** The further properties at sample datasets *)


Lemma check_duplicates_dup_count_column_witness :
  check_duplicates (λ l, l) sample_dup_count_df =
    (Err (ValueError "cannot insert dup_count, already exists"),
     sample_dup_count_df).
Proof.
  apply check_duplicates_dup_count_column; compute_done.
Defined.

Lemma check_data_types_most_frequent_witness :
  ∃ T, (∃ v, v ∈ [pint 1; PStr "x"; PStr "y"; NaN] ∧ v ≠ NaN ∧ type_of v = T) ∧
       (∀ T', (count_eq T' (map type_of (dropna [pint 1; PStr "x"; PStr "y"; NaN]))
               ≤ count_eq T (map type_of (dropna [pint 1; PStr "x"; PStr "y"; NaN])))%nat) ∧
       ({["m" := "Expected int, Found str"]} : gmap string string) !! "m" =
         (if decide (type_name T ≠ "int")
          then Some ("Expected " +:+ "int" +:+ ", Found " +:+ type_name T)
          else None).
Proof.
  apply (check_data_types_most_frequent sample_mixed_df [("m", "int")]);
    [compute_done|reflexivity|compute_done|reflexivity].
Defined.

Lemma check_ranges_entries_targeted_witness :
  "a" ∈ [("a", (pint 0, pint 3)); ("zzz", (pint 0, pint 1))].*1 ∧
  "a" ∈ columns sample_df.
Proof.
  apply (check_ranges_entries_targeted parse_decimal sample_df sample_df
           [("a", (pint 0, pint 3)); ("zzz", (pint 0, pint 1))]
           {["a" := Violations (mkFrame [1%nat] [("a", [pint 5])])]}
           eq_refl "a" (Violations (mkFrame [1%nat] [("a", [pint 5])]))).
  reflexivity.
Defined.

Lemma check_ranges_numeric_bounds_witness :
  ∃ f, Violations (mkFrame [1%nat] [("a", [pint 5])]) = Violations f ∧
       index f ≠ [] ∧ columns f = ["a"] ∧
       index f `sublist_of` index sample_df.
Proof.
  apply (check_ranges_numeric_bounds parse_decimal sample_df sample_df
           [("a", (pint 0, pint 3)); ("zzz", (pint 0, pint 1))]
           {["a" := Violations (mkFrame [1%nat] [("a", [pint 5])])]});
    [|reflexivity|reflexivity].
  intros c lo hi Hin.
  repeat (apply elem_of_cons in Hin as [Hin|Hin]);
    [injection Hin as -> -> ->; by eexists _, _ ..|inversion Hin].
Defined.

Lemma check_ranges_inverted_bounds_witness :
  ∃ m df',
    check_ranges parse_decimal [("a", (pint 3, pint 0))] sample_df = (Ok m, df') ∧
    m !! "a" =
      Some (Violations (mkFrame [0; 1; 2]%nat [("a", [pint 1; pint 5; pint 1])])).
Proof.
  destruct (check_ranges_inverted_bounds parse_decimal sample_df
              [("a", (pint 3, pint 0))] "a" (NInt 3) (NInt 0)
              [pint 1; pint 5; pint 1])
    as (m & df' & Hrun & Hm).
  - split; compute_done.
  - compute_done.
  - compute_done.
  - reflexivity.
  - compute_done.
  - exists m, df'. split; [exact Hrun|]. rewrite Hm. reflexivity.
Defined.

Lemma check_ranges_idempotent_witness :
  ∃ m df1,
    check_ranges parse_decimal [("b", (pint 0, pint 1))] sample_text_df
      = (Ok m, df1) ∧
    check_ranges parse_decimal [("b", (pint 0, pint 1))] df1 = (Ok m, df1).
Proof.
  apply check_ranges_idempotent. compute_done.
Defined.

Lemma check_ranges_keeps_well_formed_witness :
  frame_wf (check_ranges parse_decimal [("b", (pint 0, pint 1))] sample_text_df).2 ∧
  index (check_ranges parse_decimal [("b", (pint 0, pint 1))] sample_text_df).2
    = index sample_text_df ∧
  columns (check_ranges parse_decimal [("b", (pint 0, pint 1))] sample_text_df).2
    = columns sample_text_df.
Proof.
  apply check_ranges_keeps_well_formed. split; compute_done.
Defined.

Lemma range_check_adds_missing_witness :
  (check_nulls ["b"] sample_text_df).1 = Ok [("b", 0%nat)] ∧
  (bind (check_ranges parse_decimal [("b", (pint 0, pint 10))])
        (λ _, check_nulls ["b"]) sample_text_df).1 = Ok [("b", 1%nat)].
Proof.
  apply (range_check_adds_missing parse_decimal sample_text_df
           [("b", (pint 0, pint 10))] "b" (pint 0, pint 10)
           [PStr "1"; PStr "2"; PStr "oops"]);
    [compute_done|compute_done|reflexivity].
Defined.


Lemma run_checks_report_witness :
  ∃ o1 o2 o3 o4,
    null_section ["a"] [] sample_df = (Ok tt, o1, sample_df) ∧
    duplicate_section (λ l, l) [] sample_df = (Ok tt, o2, sample_df) ∧
    type_section [("b", "int")] [] sample_df = (Ok tt, o3, sample_df) ∧
    range_section parse_decimal [("a", (pint 0, pint 3))] [] sample_df
      = (Ok tt, o4,
         (check_ranges parse_decimal [("a", (pint 0, pint 3))] sample_df).2) ∧
    run_checks parse_decimal (λ l, l) ["a"] [("b", "int")]
               [("a", (pint 0, pint 3))] [] sample_df
      = (Ok tt, (o1 ++ o2 ++ o3 ++ o4)%list,
         (check_ranges parse_decimal [("a", (pint 0, pint 3))] sample_df).2).
Proof.
  apply (run_checks_report parse_decimal (λ l, l) (λ l, Permutation_refl l));
    [compute_done|compute_done|done|compute_done|].
  intros c t vs Hin Hvs.
  apply list_elem_of_singleton in Hin. injection Hin as -> ->.
  vm_compute in Hvs. injection Hvs as <-. discriminate.
Defined.

Lemma run_checks_stops_at_type_error_witness :
  ∃ out,
    run_checks parse_decimal (λ l, l) [] [("c", "float")]
               [("b", (pint 0, pint 10))] [] sample_text_df
      = (Err (KeyError "0"), out, sample_text_df) ∧
    last out = Some (Subheader "Data Type Validation") ∧
    Subheader "Range Validation" ∉ out.
Proof.
  apply (run_checks_stops_at_type_error parse_decimal (λ l, l)
           (λ l, Permutation_refl l) sample_text_df [] [("c", "float")]
           [("b", (pint 0, pint 10))] "c" "float" [NaN; NaN; NaN]);
    [compute_done|compute_done|done|compute_done|compute_done|reflexivity
    |compute_done].
Defined.
